(** * The transfer protocol of isolated-vm: src/module/transferable.cc

    A shallow embedding of the promise bridge (TransferablePromiseHolder,
    TransferablePromise and their shared TransferablePromiseStateStruct), of
    the option parser (TransferableOptions::ParseOptions) and of the transfer
    dispatch (Transferable::OptionalTransferOut, Transferable::TransferOut),
    followed by the properties of the protocol.

    C++ objects that are shared through a [std::shared_ptr] live in a store
    and are named by their index; every access to a promise state happens
    under its lock, so every operation below is one atomic step on the store. *)

From stdpp Require Import base option list strings gmap.

(** ** Values of the source realm (v8) *)

Module v8.

(** [v8::Promise::PromiseState]. *)
Inductive PromiseState := kPending | kFulfilled | kRejected.

(** A [v8::Local<v8::Value>], with the distinctions the transfer protocol
    looks at: [IsPromise], [IsObject], and whether the object wraps a
    native [TransferableHandle].  The payload of a number is its 64-bit
    pattern; the protocol never inspects it. *)
Inductive Value :=
| Undefined
| Null
| Boolean (b : bool)
| Number (bits : Z)
| String (s : string)
| ErrorObject (name message : string)
| PlainObject (id : nat)
| WrappedHandle (handle : nat)
| Promise (id : nat) (State : PromiseState) (Result : Value).

Definition IsPromise (value : Value) : bool :=
  match value with Promise _ _ _ => true | _ => false end.

Definition IsObject (value : Value) : bool :=
  match value with
  | ErrorObject _ _ | PlainObject _ | WrappedHandle _ | Promise _ _ _ => true
  | _ => false
  end.

End v8.
Export v8.

(** [ClassHandle::Unwrap<TransferableHandle>(object)]: the native handle
    wrapped by the object, or [nullptr]. *)
Definition Unwrap_TransferableHandle (object : Value) : option nat :=
  match object with WrappedHandle handle => Some handle | _ => None end.

(** ** Transferables *)

(** [ExternalCopyError::ErrorType]. *)
Inductive ErrorType := Error | TypeError | RangeError.

(** Modelled from the spec: external_copy.h is not part of the sources.  An
    [ExternalCopy] is a realm-independent structural copy; the only subclass
    named by transferable.cc is [ExternalCopyError], every other copy is
    identified by the value it was made from. *)
Inductive ExternalCopy :=
| ExternalCopyError (type : ErrorType) (message : string)
| ExternalCopyValue (payload : Value).

(** The subclasses of [Transferable].  [ExternalCopy] is itself a
    [Transferable] ([AsTransferable] is the upcast); [TransferablePromise]
    holds a [shared_ptr] to its state, here the index of the state in the
    store; [ForeignTransferable] stands for the subclasses defined by other
    modules, which only a native handle can produce. *)
Inductive Transferable :=
| AsTransferable (copy : ExternalCopy)
| ExternalCopyTransferable (copy : ExternalCopy)
| ReferenceHandleTransferable (value : Value)
| TransferablePromise (state : nat)
| ForeignTransferable (id : nat).

(** ** Exceptions and outcomes *)

(** The C++ exceptions that cross this file.  [RuntimeTypeError] is thrown at
    lines 197 and 259; a failure of a collaborator is carried in the form in
    which [RunCatchExternal] hands it to its error functor. *)
Inductive Exception :=
| RuntimeTypeError (message : string)
| CollaboratorError (error : ExternalCopy).

(** The result of running a piece of C++: a value or an exception. *)
Inductive Outcome (A : Type) :=
| Ok (a : A)
| Throw (e : Exception).
Arguments Ok {A} a.
Arguments Throw {A} e.

Global Instance Outcome_ret : MRet Outcome := λ A a, Ok a.

Global Instance Outcome_bind : MBind Outcome := λ A B f m,
  match m with
  | Ok a => f a
  | Throw e => Throw e
  end.

(** ** Transfer options *)

(** [TransferableOptions::Type].  Modelled from the spec: transferable.h is
    not part of the sources; the enumeration is the spec's
    {Unset, Copy, SerializedSnapshot, BackReference} under the names used in
    transferable.cc, and a default-constructed options object has
    [type = None], [promise = false]. *)
Inductive OptionsType := TypeNone | TypeCopy | TypeExternalCopy | TypeReference.

Record TransferableOptions := {
  type : OptionsType;
  fallback : OptionsType;
  promise : bool;
}.

Definition set_type (t : OptionsType) (o : TransferableOptions) : TransferableOptions :=
  {| type := t; fallback := fallback o; promise := promise o |}.

Definition set_promise (b : bool) (o : TransferableOptions) : TransferableOptions :=
  {| type := type o; fallback := fallback o; promise := b |}.

(** Modelled from the spec: [ReadOption<bool>] (isolate/util.h) is not part
    of the sources.  The options bag holds boolean flags; reading a flag that
    is absent yields the default. *)
Definition ReadOption (options : gmap string bool) (key : string) (default_value : bool) : bool :=
  default default_value (options !! key).

(** [TransferableOptions::ParseOptions], lines 192-207, run on [this]. *)
Definition ParseOptions (this : TransferableOptions) (options : gmap string bool)
  : Outcome TransferableOptions :=
  let copy := ReadOption options "copy"%string false in
  let externalCopy := ReadOption options "externalCopy"%string false in
  let reference := ReadOption options "reference"%string false in
  if (copy && externalCopy) || (copy && reference) || (externalCopy && reference) then
    Throw (RuntimeTypeError "Only one of `copy`, `externalCopy`, or `reference` may be set"%string)
  else
    let this :=
      if copy then set_type TypeCopy this
      else if externalCopy then set_type TypeExternalCopy this
      else if reference then set_type TypeReference this
      else this in
    Ok (set_promise (ReadOption options "promise"%string false) this).

(** The constructors of lines 181-190: the members start from their default
    values, the fallback is taken from the caller. *)
Definition TransferableOptions_new (options : gmap string bool) (fallback : OptionsType)
  : Outcome TransferableOptions :=
  ParseOptions {| type := TypeNone; fallback := fallback; promise := false |} options.

Definition TransferableOptions_new_maybe (maybe_options : option (gmap string bool))
    (fallback : OptionsType) : Outcome TransferableOptions :=
  match maybe_options with
  | Some options =>
      ParseOptions {| type := TypeNone; fallback := fallback; promise := false |} options
  | None => Ok {| type := TypeNone; fallback := fallback; promise := false |}
  end.

(** ** The store *)

(** A [RemoteHandle<Promise::Resolver>]: the resolver and the isolate it
    belongs to ([GetIsolateHolder]). *)
Record Resolver := {
  resolver_isolate : nat;
  resolver_id : nat;
}.

(** [TransferablePromiseStateStruct], lines 17-23. *)
Record TransferablePromiseStateStruct := {
  value : option Transferable;
  waiting : list Resolver;
  did_throw : bool;
  resolved : bool;
}.

(** A default-constructed state, as [std::make_shared] produces it. *)
Definition TransferablePromiseState_new : TransferablePromiseStateStruct :=
  {| value := None; waiting := []; did_throw := false; resolved := false |}.

(** [TransferablePromiseHolder], lines 132-133. *)
Record TransferablePromiseHolder := {
  state : nat;
  transfer_options : TransferableOptions;
}.

(** [ResolveTask], lines 112-130. *)
Record ResolveTask := {
  task_resolver : Resolver;
  task_value : option Transferable;
  task_did_throw : bool;
}.

(** What a resolver was settled with: [resolver->Reject] when
    [settle_reject], else [resolver->Resolve], on the materialisation of
    [settle_value] ([value->TransferIn()] is a virtual call into the stored
    transferable; the log keeps the transferable it is made on). *)
Record Settlement := {
  settle_resolver : Resolver;
  settle_reject : bool;
  settle_value : option Transferable;
}.

(** One assignment to a settlement field of the state at [write_state]. *)
Inductive Field :=
| WriteResolved
| WriteValue (v : option Transferable)
| WriteDidThrow (b : bool).

Record Write := {
  write_state : nat;
  write_field : Field;
}.

(** The part of the process the bridge acts on:
    - [heap]: the promise states, shared between holders and transferables;
    - [reactions]: the continuations installed by [Accept] on pending
      promises, as (promise, holder) pairs;
    - [scheduled]: the calls of [ScheduleTask], oldest first, each with the
      isolate the task was queued on;
    - [settled]: the calls of [Resolve] and [Reject] on resolvers;
    - [writes]: ghost history of the assignments to settlement fields;
    - [next_resolver]: the supply of [Promise::Resolver::New]. *)
Record World := {
  heap : list TransferablePromiseStateStruct;
  reactions : list (nat * TransferablePromiseHolder);
  scheduled : list (nat * ResolveTask);
  settled : list Settlement;
  writes : list Write;
  next_resolver : nat;
}.

Definition empty_world : World :=
  {| heap := []; reactions := []; scheduled := []; settled := []; writes := [];
     next_resolver := 0 |}.

Definition set_heap (f : list TransferablePromiseStateStruct → list TransferablePromiseStateStruct)
    (w : World) : World :=
  {| heap := f (heap w); reactions := reactions w; scheduled := scheduled w;
     settled := settled w; writes := writes w; next_resolver := next_resolver w |}.

Definition add_reaction (r : nat * TransferablePromiseHolder) (w : World) : World :=
  {| heap := heap w; reactions := reactions w ++ [r]; scheduled := scheduled w;
     settled := settled w; writes := writes w; next_resolver := next_resolver w |}.

Definition add_scheduled (t : nat * ResolveTask) (w : World) : World :=
  {| heap := heap w; reactions := reactions w; scheduled := scheduled w ++ [t];
     settled := settled w; writes := writes w; next_resolver := next_resolver w |}.

Definition add_settled (s : Settlement) (w : World) : World :=
  {| heap := heap w; reactions := reactions w; scheduled := scheduled w;
     settled := settled w ++ [s]; writes := writes w; next_resolver := next_resolver w |}.

Definition add_write (x : Write) (w : World) : World :=
  {| heap := heap w; reactions := reactions w; scheduled := scheduled w;
     settled := settled w; writes := writes w ++ [x]; next_resolver := next_resolver w |}.

Definition bump_resolver (w : World) : World :=
  {| heap := heap w; reactions := reactions w; scheduled := scheduled w;
     settled := settled w; writes := writes w; next_resolver := S (next_resolver w) |}.

(** ** The monad of the source realm: state and exceptions

    A computation maps the store to a new store and an outcome.  It yields
    [None] where the model assigns no behaviour: no fuel left for a nested
    transfer, or a pointer that names no state. *)

Definition M (A : Type) : Type := World → option (World * Outcome A).

Global Instance M_ret : MRet M := λ A a w, Some (w, Ok a).

Global Instance M_bind : MBind M := λ A B f m w,
  match m w with
  | Some (w', Ok a) => f a w'
  | Some (w', Throw e) => Some (w', Throw e)
  | None => None
  end.

Definition throw {A} (e : Exception) : M A := λ w, Some (w, Throw e).
Definition stuck {A} : M A := λ w, None.
Definition lift {A} (o : Outcome A) : M A := λ w, Some (w, o).
Definition update (f : World → World) : M unit := λ w, Some (f w, Ok tt).

(** [state->write()]: the locked state behind a pointer. *)
Definition lock_state (l : nat) : M TransferablePromiseStateStruct := λ w,
  match heap w !! l with
  | Some lock => Some (w, Ok lock)
  | None => None
  end.

(** [std::make_shared<TransferablePromiseState>()]. *)
Definition make_shared_state : M nat := λ w,
  Some (set_heap (λ h, h ++ [TransferablePromiseState_new]) w, Ok (length (heap w))).

Definition write_resolved (l : nat) (b : bool) : M unit :=
  update (λ w, add_write {| write_state := l; write_field := WriteResolved |}
    (set_heap (alter (λ s, {| value := value s; waiting := waiting s;
                              did_throw := did_throw s; resolved := b |}) l) w)).

Definition write_value (l : nat) (v : option Transferable) : M unit :=
  update (λ w, add_write {| write_state := l; write_field := WriteValue v |}
    (set_heap (alter (λ s, {| value := v; waiting := waiting s;
                              did_throw := did_throw s; resolved := resolved s |}) l) w)).

Definition write_did_throw (l : nat) (b : bool) : M unit :=
  update (λ w, add_write {| write_state := l; write_field := WriteDidThrow b |}
    (set_heap (alter (λ s, {| value := value s; waiting := waiting s;
                              did_throw := b; resolved := resolved s |}) l) w)).

Definition write_waiting (l : nat) (q : list Resolver) : M unit :=
  update (set_heap (alter (λ s, {| value := value s; waiting := q;
                                   did_throw := did_throw s; resolved := resolved s |}) l)).

(** ** Collaborators *)

(** The interfaces transferable.cc calls into and whose code lives in other
    modules: the deep-copy codec ([ExternalCopy::Copy],
    [ExternalCopy::CopyIfPrimitive], [ExternalCopy::CopyIfPrimitiveOrError])
    and the virtual [TransferableHandle::TransferOut] of a native handle.
    [Copy] and a handle may throw; [CopyIfPrimitive] answers [nullptr] for a
    value it does not take; [CopyIfPrimitiveOrError] always yields a copy. *)
Class Collaborators := {
  Copy : Value → Outcome ExternalCopy;
  CopyIfPrimitive : Value → option ExternalCopy;
  CopyIfPrimitiveOrError : Value → ExternalCopy;
  TransferableHandle_TransferOut : nat → Outcome (option Transferable);
}.

(** The copy of an exception that [RunCatchExternal] makes. *)
Definition external_error (e : Exception) : ExternalCopy :=
  match e with
  | RuntimeTypeError message => ExternalCopyError TypeError message
  | CollaboratorError error => error
  end.

(** Modelled from the spec: [FunctorRunners::RunCatchExternal]
    (isolate/functor_runners.h) is not part of the sources.  It runs [fn1];
    if [fn1] fails, the failure is captured as a structurally-copyable error
    value and handed to [fn2], in the store as [fn1] left it. *)
Definition RunCatchExternal {A} (fn1 : M A) (fn2 : ExternalCopy → M A) : M A := λ w,
  match fn1 w with
  | Some (w', Throw e) => fn2 (external_error e) w'
  | r => r
  end.

(** [IsolateHolder::ScheduleTask(task, false, true)] on the isolate of the
    resolver: the task joins that isolate's queue. *)
Definition ScheduleTask (isolate : nat) (task : ResolveTask) : M unit :=
  update (add_scheduled (isolate, task)).

(** [resolver->Resolve(context, value->TransferIn())] and
    [resolver->Reject(context, value->TransferIn())]. *)
Definition Resolve (resolver : Resolver) (v : option Transferable) : M unit :=
  update (add_settled {| settle_resolver := resolver; settle_reject := false; settle_value := v |}).

Definition Reject (resolver : Resolver) (v : option Transferable) : M unit :=
  update (add_settled {| settle_resolver := resolver; settle_reject := true; settle_value := v |}).

(** [Promise::Resolver::New(context)] in the isolate that is running. *)
Definition Resolver_New (isolate : nat) : M Resolver := λ w,
  Some (bump_resolver w,
        Ok {| resolver_isolate := isolate; resolver_id := next_resolver w |}).

(** A range-based [for] over a container. *)
Fixpoint for_each {A} (body : A → M unit) (l : list A) : M unit :=
  match l with
  | [] => mret tt
  | x :: l' => body x;; for_each body l'
  end.

(** ** The promise holder *)

Section Holder.

Context `{Collaborators}.

(** [Transferable::TransferOut], which is defined after the holder and
    calls back into it. *)
Variable TransferOut : Value → TransferableOptions → M Transferable.

(** [TransferablePromiseHolder::Save], lines 80-104.  [did_throw_arg] is
    the parameter [did_throw] on entry; the error functor assigns to it, so
    the branch yields its final value.  The lines up to the draining of the
    queue are the critical section; [lock] is read again after the branch
    because the branch has written through it. *)
Definition Save (did_throw_arg : bool) (callback : M Transferable)
    (this : TransferablePromiseHolder) : M unit :=
  lock ← lock_state (state this);
  did_throw_now ←
    (if negb (resolved lock) then
       write_resolved (state this) true;;
       RunCatchExternal
         (v ← callback;
          write_value (state this) (Some v);;
          write_did_throw (state this) did_throw_arg;;
          mret did_throw_arg)
         (λ error,
          write_value (state this) (Some (AsTransferable error));;
          write_did_throw (state this) true;;
          mret true)
     else mret did_throw_arg);
  lock ← lock_state (state this);
  let resolved_value := value lock in
  let pending_tasks := waiting lock in
  write_waiting (state this) [];;
  for_each (λ resolver,
      ScheduleTask (resolver_isolate resolver)
        {| task_resolver := resolver; task_value := resolved_value;
           task_did_throw := did_throw_now |})
    pending_tasks.

(** [~TransferablePromiseHolder], lines 38-42. *)
Definition TransferablePromiseHolder_destroy (this : TransferablePromiseHolder) : M unit :=
  Save true
    (mret (AsTransferable (ExternalCopyError Error "Promise was abandoned"%string)))
    this.

(** [TransferablePromiseHolder::Resolved], lines 73-77. *)
Definition Resolved (that : TransferablePromiseHolder) (v : Value) : M unit :=
  Save false (TransferOut v (transfer_options that)) that.

(** [TransferablePromiseHolder::Rejected], lines 106-110. *)
Definition Rejected (that : TransferablePromiseHolder) (v : Value) : M unit :=
  Save true (mret (AsTransferable (CopyIfPrimitiveOrError v))) that.

(** [TransferablePromiseHolder::Accept], lines 50-71.  On a pending promise
    the two continuations are installed with the holder as their data; a
    [Local<Promise>] is never anything but a promise. *)
Definition Accept (this : TransferablePromiseHolder) (promise : Value) : M unit :=
  match promise with
  | Promise id st result =>
      match st with
      | kPending => update (add_reaction (id, this))
      | kFulfilled => Resolved this result
      | kRejected => Rejected this result
      end
  | _ => stuck
  end.

(** [TransferablePromise::MakeHolder], lines 167-172. *)
Definition MakeHolder (this_state : nat) (transfer_options : TransferableOptions)
  : TransferablePromiseHolder :=
  let transfer_options := set_promise false transfer_options in
  {| state := this_state; transfer_options := transfer_options |}.

(** The constructor of lines 139-142. *)
Definition TransferablePromise_of_promise (promise : Value)
    (transfer_options : TransferableOptions) : M Transferable :=
  this_state ← make_shared_state;
  Accept (MakeHolder this_state transfer_options) promise;;
  mret (TransferablePromise this_state).

(** The constructor of lines 144-147. *)
Definition TransferablePromise_of_value (v : Value)
    (transfer_options : TransferableOptions) : M Transferable :=
  this_state ← make_shared_state;
  Resolved (MakeHolder this_state transfer_options) v;;
  mret (TransferablePromise this_state).

End Holder.

(** [ResolveTask::Run], lines 116-125. *)
Definition Run (this : ResolveTask) : M unit :=
  if task_did_throw this then Reject (task_resolver this) (task_value this)
  else Resolve (task_resolver this) (task_value this).

(** [TransferablePromise::TransferIn], lines 149-164, for the transferable
    with state [this_state], run in [isolate].  The promise it returns is
    named by its resolver. *)
Definition TransferIn (this_state : nat) (isolate : nat) : M Resolver :=
  resolver ← Resolver_New isolate;
  lock ← lock_state this_state;
  (if resolved lock then
     if did_throw lock then Reject resolver (value lock)
     else Resolve resolver (value lock)
   else write_waiting this_state (waiting lock ++ [resolver]));;
  mret resolver.

(** ** Transfer dispatch *)

Section Dispatch.

Context `{Collaborators}.

(** The lambda [TransferWithType] of lines 212-226. *)
Definition TransferWithType (v : Value) (type : OptionsType)
  : Outcome (option Transferable) :=
  match type with
  | TypeCopy => copy ← Copy v; mret (Some (AsTransferable copy))
  | TypeExternalCopy => copy ← Copy v; mret (Some (ExternalCopyTransferable copy))
  | TypeReference => mret (Some (ReferenceHandleTransferable v))
  | _ => mret None
  end.

(** The body of [Transferable::TransferOut], lines 256-262, over the
    optional form it calls. *)
Definition TransferOut_via (optional : Value → TransferableOptions → M (option Transferable))
    (v : Value) (options : TransferableOptions) : M Transferable :=
  copy ← optional v options;
  match copy with
  | None => throw (RuntimeTypeError "A non-transferable value was passed"%string)
  | Some copy => mret copy
  end.

(** [Transferable::OptionalTransferOut], lines 211-254.  The function is
    recursive through the holder's [Resolved]; [fuel] bounds the depth of
    that nesting. *)
Fixpoint OptionalTransferOut (fuel : nat) (v : Value) (options : TransferableOptions)
  : M (option Transferable) :=
  match fuel with
  | 0 => stuck
  | S fuel' =>
      let TransferOut := TransferOut_via (OptionalTransferOut fuel') in
      if promise options then
        if IsPromise v then
          t ← TransferablePromise_of_promise TransferOut v options; mret (Some t)
        else
          t ← TransferablePromise_of_value TransferOut v options; mret (Some t)
      else
        match type options with
        | TypeNone =>
            match (if IsObject v then Unwrap_TransferableHandle v else None) with
            | Some ptr => lift (TransferableHandle_TransferOut ptr)
            | None =>
                match CopyIfPrimitive v with
                | Some result => mret (Some (AsTransferable result))
                | None => lift (TransferWithType v (fallback options))
                end
            end
        | _ => lift (TransferWithType v (type options))
        end
  end.

(** [Transferable::TransferOut], lines 256-262. *)
Definition TransferOut (fuel : nat) : Value → TransferableOptions → M Transferable :=
  TransferOut_via (OptionalTransferOut fuel).

End Dispatch.

(** ** A codec to run the protocol on *)

(** Modelled from the spec: the deep-copy codec (external_copy.cc) and the
    native handles are not part of the sources.  This is one codec with the
    interfaces of section 6 of the spec, used to run the protocol on concrete
    inputs; the properties below are proved for every codec.  [copy]
    deep-clones and fails on a promise; [copyIfPrimitive] takes the
    realm-independent primitives of section 4.2 step 2(b), the
    structurally-copyable error included; [copyIfPrimitiveOrError] always
    succeeds, normalising every other value to a generic error marker; handle
    0 is a released handle, whose [TransferOut] throws, every other handle
    hands out a transferable of its own. *)
Definition spec_Copy (v : Value) : Outcome ExternalCopy :=
  match v with
  | Promise _ _ _ =>
      Throw (CollaboratorError (ExternalCopyError TypeError "#<Promise> could not be cloned."%string))
  | _ => Ok (ExternalCopyValue v)
  end.

Definition spec_CopyIfPrimitive (v : Value) : option ExternalCopy :=
  match v with
  | Undefined | Null | Boolean _ | Number _ | String _ => Some (ExternalCopyValue v)
  | ErrorObject _ message => Some (ExternalCopyError Error message)
  | _ => None
  end.

Definition spec_CopyIfPrimitiveOrError (v : Value) : ExternalCopy :=
  match spec_CopyIfPrimitive v with
  | Some copy => copy
  | None => ExternalCopyError Error "An object was thrown, but it was not an instance of `Error`."%string
  end.

Definition spec_TransferOut (handle : nat) : Outcome (option Transferable) :=
  match handle with
  | 0 => Throw (RuntimeTypeError "The handle has been released"%string)
  | S id => Ok (Some (ForeignTransferable id))
  end.

Definition spec_codec : Collaborators :=
  {| Copy := spec_Copy;
     CopyIfPrimitive := spec_CopyIfPrimitive;
     CopyIfPrimitiveOrError := spec_CopyIfPrimitiveOrError;
     TransferableHandle_TransferOut := spec_TransferOut |}.

(** ** Vocabulary of the statements *)

(** The native transfer capability of a value, lines 238-243: the handle of
    an object that wraps one. *)
Definition native_capability (v : Value) : option nat :=
  if IsObject v then Unwrap_TransferableHandle v else None.

(** The number of the flags [copy], [externalCopy], [reference] that are
    set in an options bag. *)
Definition flags_set (options : gmap string bool) : nat :=
  Nat.b2n (ReadOption options "copy"%string false)
  + Nat.b2n (ReadOption options "externalCopy"%string false)
  + Nat.b2n (ReadOption options "reference"%string false).

(** The kind a valid options bag asks for. *)
Definition requested_type (options : gmap string bool) : OptionsType :=
  if ReadOption options "copy"%string false then TypeCopy
  else if ReadOption options "externalCopy"%string false then TypeExternalCopy
  else if ReadOption options "reference"%string false then TypeReference
  else TypeNone.

(** Modelled from the spec: the values section 4.2 step 2(b) sends down the
    fast copy path, "a realm-independent primitive (boolean, number, string,
    null/undefined, or a structurally-copyable error)".  Which values
    [ExternalCopy::CopyIfPrimitive] takes is decided by external_copy.cc,
    which is not part of the sources. *)
Definition realm_independent (v : Value) : bool :=
  match v with
  | Undefined | Null | Boolean _ | Number _ | String _ | ErrorObject _ _ => true
  | _ => false
  end.

(** The strict reading of an optional transfer, lines 257-261. *)
Definition strict (copy : Outcome (option Transferable)) : Outcome Transferable :=
  match copy with
  | Ok (Some t) => Ok t
  | Ok None => Throw (RuntimeTypeError "A non-transferable value was passed"%string)
  | Throw e => Throw e
  end.

(** What a settlement stores for the outcome of its callback: the value and
    the rejection flag. *)
Definition settlement (did_throw_arg : bool) (r : Outcome Transferable)
  : option Transferable * bool :=
  match r with
  | Ok v => (Some v, did_throw_arg)
  | Throw e => (Some (AsTransferable (external_error e)), true)
  end.

(** A settled state. *)
Definition settled_state (s : option Transferable * bool) : TransferablePromiseStateStruct :=
  {| value := s.1; waiting := []; did_throw := s.2; resolved := true |}.

(** One task per resolver of a queue, in the order of the queue, each on the
    isolate of its resolver. *)
Definition tasks_for (s : option Transferable * bool) (q : list Resolver)
  : list (nat * ResolveTask) :=
  map (λ resolver, (resolver_isolate resolver,
         {| task_resolver := resolver; task_value := s.1; task_did_throw := s.2 |})) q.

(** The three assignments of a settlement of the state at [l]. *)
Definition settlement_writes (l : nat) (s : option Transferable * bool) : list Write :=
  [ {| write_state := l; write_field := WriteResolved |};
    {| write_state := l; write_field := WriteValue s.1 |};
    {| write_state := l; write_field := WriteDidThrow s.2 |} ].

(** The store after the state at [l], whose queue was [q], settled with [s]. *)
Definition settle_world (l : nat) (s : option Transferable * bool) (q : list Resolver)
    (w : World) : World :=
  {| heap := <[l := settled_state s]> (heap w);
     reactions := reactions w;
     scheduled := scheduled w ++ tasks_for s q;
     settled := settled w;
     writes := writes w ++ settlement_writes l s;
     next_resolver := next_resolver w |}.

(** The error an abandoned bridge is rejected with, line 40. *)
Definition abandoned : option Transferable :=
  Some (AsTransferable (ExternalCopyError Error "Promise was abandoned"%string)).

(** What can happen to a bridge once it exists: the originating promise
    fulfils or rejects, the holder is destroyed, or a destination isolate
    materialises the transferable. *)
Inductive Event :=
| EvResolved (v : Value)
| EvRejected (v : Value)
| EvDestroy
| EvTransferIn (isolate : nat).

(** The events that invoke the settlement procedure. *)
Definition is_trigger (e : Event) : bool :=
  match e with EvTransferIn _ => false | _ => true end.

(** The resolvers that the [TransferIn] events of a history create, oldest
    first, when the next fresh resolver is [next]. *)
Fixpoint created (evs : list Event) (next : nat) : list Resolver :=
  match evs with
  | [] => []
  | EvTransferIn isolate :: evs' =>
      {| resolver_isolate := isolate; resolver_id := next |} :: created evs' (S next)
  | _ :: evs' => created evs' next
  end.

(** The resolvers that were handed an outcome, by a task or on the spot. *)
Definition delivered (tasks : list (nat * ResolveTask)) (outcomes : list Settlement)
  : list Resolver :=
  map (λ t, task_resolver t.2) tasks ++ map settle_resolver outcomes.

Section Histories.

Context `{Collaborators}.

(** The kind dispatch of lines 236-253, as a function of the value and the
    options. *)
Definition dispatch (v : Value) (options : TransferableOptions)
  : Outcome (option Transferable) :=
  match type options with
  | TypeNone =>
      match native_capability v with
      | Some ptr => TransferableHandle_TransferOut ptr
      | None =>
          match CopyIfPrimitive v with
          | Some result => Ok (Some (AsTransferable result))
          | None => TransferWithType v (fallback options)
          end
      end
  | _ => TransferWithType v (type options)
  end.

(** One event on the bridge of the holder [that]. *)
Definition fire (fuel : nat) (that : TransferablePromiseHolder) (e : Event) : M unit :=
  match e with
  | EvResolved v => Resolved (TransferOut fuel) that v
  | EvRejected v => Rejected that v
  | EvDestroy => TransferablePromiseHolder_destroy that
  | EvTransferIn isolate => TransferIn (state that) isolate;; mret tt
  end.

(** A history of events, in order. *)
Definition run (fuel : nat) (that : TransferablePromiseHolder) (evs : list Event) : M unit :=
  for_each (fire fuel that) evs.

(** Destination isolates materialise the transferable one after the other;
    the result lists their resolvers in that order. *)
Fixpoint register (l : nat) (isolates : list nat) : M (list Resolver) :=
  match isolates with
  | [] => mret []
  | isolate :: isolates' =>
      resolver ← TransferIn l isolate;
      resolvers ← register l isolates';
      mret (resolver :: resolvers)
  end.

(** The originating promise of the holder [that] settles with [v]. *)
Definition settle_promise (fuel : nat) (that : TransferablePromiseHolder)
    (rejected : bool) (v : Value) : M unit :=
  if rejected then Rejected that v else Resolved (TransferOut fuel) that v.

(** The reading of "the settled value is produced according to the
    caller's kind": the settlement stores what the strict transfer of [v]
    under the holder's options yields, a failure captured as its error
    copy. *)
Definition stored_by_kind (fuel : nat) (that : TransferablePromiseHolder)
    (rejected : bool) (v : Value) (w : World) : Prop :=
  ∃ w' st',
    settle_promise fuel that rejected v w = Some (w', Ok tt) ∧
    heap w' !! state that = Some st' ∧
    value st' = (settlement rejected (strict (dispatch v (transfer_options that)))).1.

(** The store after a transfer-out with the promise option: one new
    state, which a pending promise leaves unsettled behind a pair of
    continuations, and which a settled promise or a plain value settles at
    once, through a holder whose options have the promise option off. *)
Definition bridge_world (v : Value) (options : TransferableOptions) (w : World) : World :=
  let l := length (heap w) in
  let that := MakeHolder l options in
  let w0 := set_heap (λ h, h ++ [TransferablePromiseState_new]) w in
  match v with
  | Promise id kPending _ => add_reaction (id, that) w0
  | Promise id kFulfilled result =>
      settle_world l (settlement false (strict (dispatch result (transfer_options that)))) [] w0
  | Promise id kRejected result =>
      settle_world l (Some (AsTransferable (CopyIfPrimitiveOrError result)), true) [] w0
  | _ =>
      settle_world l (settlement false (strict (dispatch v (transfer_options that)))) [] w0
  end.

(** The state of the holder [that] is settled in [w'] with the outcome of
    the strict transfer of [v] under the holder's options; that transfer
    leaves every store as it is, so it creates no bridge, and its outcome
    is a promise only where a native handle hands one out. *)
Definition settled_with_inner_transfer (fuel : nat) (that : TransferablePromiseHolder)
    (v : Value) (w' : World) : Prop :=
  ∃ r,
    (∀ u, TransferOut fuel v (transfer_options that) u = Some (u, r))
    ∧ heap w' !! state that = Some (settled_state (settlement false r))
    ∧ ∀ k, r = Ok (TransferablePromise k) →
        ∃ ptr, native_capability v = Some ptr ∧
               TransferableHandle_TransferOut ptr = Ok (Some (TransferablePromise k)).

End Histories.

(** The value a transfer-out with the promise option settles the bridge
    with before it returns: the value itself, or the result of a promise
    that is already fulfilled. *)
Definition wrapped_value (v : Value) : option Value :=
  match v with
  | Promise _ kFulfilled result => Some result
  | Promise _ _ _ => None
  | _ => Some v
  end.

(** The state of a bridge rejected with the copy of the exception [e]. *)
Definition rejected_with (e : Exception) : TransferablePromiseStateStruct :=
  {| value := Some (AsTransferable (external_error e)); waiting := [];
     did_throw := true; resolved := true |}.

Definition set_fallback (t : OptionsType) (o : TransferableOptions) : TransferableOptions :=
  {| type := type o; fallback := t; promise := promise o |}.

(** A store with one fresh bridge state and nothing else. *)
Definition fresh_world : World :=
  set_heap (λ _, [TransferablePromiseState_new]) empty_world.

(** ** Vocabulary of the further properties *)

(** The keys [ParseOptions] reads, lines 193-206. *)
Definition option_keys : list string :=
  ["copy"; "externalCopy"; "reference"; "promise"]%string.

(** The shape of a bridge state between two operations: an unsettled state
    still has the members of a default-constructed one except for its queue;
    a settled state has an empty queue and holds a value. *)
Definition state_ok (st : TransferablePromiseStateStruct) : Prop :=
  if resolved st
  then waiting st = [] ∧ is_Some (value st)
  else value st = None ∧ did_throw st = false.

(** The isolate of each destination runs the tasks queued on it, here in the
    order in which they were scheduled. *)
Definition run_tasks (tasks : list (nat * ResolveTask)) : M unit :=
  for_each (λ t : nat * ResolveTask, Run t.2) tasks.

(** The record of settling each resolver of a queue with [s]. *)
Definition records_for (s : option Transferable * bool) (q : list Resolver)
  : list Settlement :=
  map (λ resolver, {| settle_resolver := resolver; settle_reject := s.2;
                      settle_value := s.1 |}) q.

(** The state in which a promise that settles with [rejected] is found. *)
Definition settled_as (rejected : bool) : PromiseState :=
  if rejected then kRejected else kFulfilled.

(** ** Running the monad *)

Lemma alter_lookup {A} (f : A → A) (l : list A) i x :
  l !! i = Some x → alter f i l = <[i := f x]> l.
Proof.
  revert i. induction l as [|y l IH]; intros [|i] Hi; simplify_eq/=; [done|].
  f_equal. by apply IH.
Qed.

Lemma bind_Ok {A B} (m : M A) (f : A → M B) w w' a :
  m w = Some (w', Ok a) → (m ≫= f) w = f a w'.
Proof. intros Hm. unfold mbind, M_bind. by rewrite Hm. Qed.

Lemma bind_Ok_eq {A B} (m : M A) (f : A → M B) w w' a r :
  m w = Some (w', Ok a) → f a w' = r → (m ≫= f) w = r.
Proof. intros Hm <-. by apply bind_Ok. Qed.

Lemma lock_state_Some w l st :
  heap w !! l = Some st → lock_state l w = Some (w, Ok st).
Proof. intros Hl. unfold lock_state. by rewrite Hl. Qed.

Lemma World_eta w :
  {| heap := heap w; reactions := reactions w; scheduled := scheduled w;
     settled := settled w; writes := writes w; next_resolver := next_resolver w |} = w.
Proof. by destruct w. Qed.

Lemma State_eta st :
  {| value := value st; waiting := waiting st; did_throw := did_throw st;
     resolved := resolved st |} = st.
Proof. by destruct st. Qed.

(** The loop of lines 98-103 queues one task per resolver, in order. *)
Lemma for_each_ScheduleTask s q w :
  for_each (λ resolver, ScheduleTask (resolver_isolate resolver)
     {| task_resolver := resolver; task_value := s.1; task_did_throw := s.2 |}) q w
  = Some ({| heap := heap w; reactions := reactions w;
             scheduled := scheduled w ++ tasks_for s q;
             settled := settled w; writes := writes w;
             next_resolver := next_resolver w |}, Ok tt).
Proof.
  revert w. induction q as [|r q IH]; intros w; simpl.
  - by rewrite app_nil_r, World_eta.
  - unfold mbind, M_bind. simpl. rewrite IH. simpl. by rewrite <- app_assoc.
Qed.

(** ** The settlement procedure, case by case *)

(** On a settled state [Save] writes no settlement field: it only drains
    the queue, with the stored value and the flag it was called with. *)
Lemma Save_resolved d cb this w st :
  heap w !! state this = Some st → resolved st = true →
  Save d cb this w =
    Some ({| heap := <[state this := {| value := value st; waiting := [];
                                        did_throw := did_throw st; resolved := true |}]> (heap w);
             reactions := reactions w;
             scheduled := scheduled w ++ tasks_for (value st, d) (waiting st);
             settled := settled w; writes := writes w;
             next_resolver := next_resolver w |}, Ok tt).
Proof.
  intros Hl Hr. unfold Save.
  rewrite (bind_Ok _ _ _ _ _ (lock_state_Some _ _ _ Hl)), Hr. simpl.
  unfold mbind at 1, M_bind at 1. simpl.
  rewrite (bind_Ok _ _ _ _ _ (lock_state_Some _ _ _ Hl)).
  unfold write_waiting, update, mbind, M_bind.
  rewrite (for_each_ScheduleTask (value st, d)). simpl.
  by rewrite (alter_lookup _ _ _ _ Hl), Hr.
Qed.

(** With an empty queue this is no change at all. *)
Lemma Save_settled d cb this w st :
  heap w !! state this = Some st → resolved st = true → waiting st = [] →
  Save d cb this w = Some (w, Ok tt).
Proof.
  intros Hl Hr Hq. rewrite (Save_resolved _ _ _ _ _ Hl Hr), Hq. simpl.
  rewrite <- Hq, <- Hr, State_eta, (list_insert_id _ _ _ Hl), app_nil_r.
  by rewrite World_eta.
Qed.

(** On an unsettled state [Save] settles with the outcome of the callback,
    for a callback that leaves the store alone. *)
Lemma Save_unresolved d cb r this w st :
  heap w !! state this = Some st → resolved st = false →
  (∀ w', cb w' = Some (w', r)) →
  Save d cb this w
  = Some (settle_world (state this) (settlement d r) (waiting st) w, Ok tt).
Proof.
  intros Hl Hr Hcb. unfold Save.
  rewrite (bind_Ok _ _ _ _ _ (lock_state_Some _ _ _ Hl)), Hr. simpl.
  unfold RunCatchExternal, write_resolved, write_value, write_did_throw, write_waiting,
    lock_state, update, mbind, M_bind, mret, M_ret.
  rewrite Hcb. destruct r as [v|e]; simpl.
  all: rewrite !list_alter_alter_eq, !list_lookup_alter_eq, Hl; simpl.
  - rewrite (for_each_ScheduleTask (Some v, d)). simpl.
    rewrite !list_alter_alter_eq, (alter_lookup _ _ _ _ Hl). simpl.
    unfold settle_world, settlement_writes. simpl. by rewrite <- !app_assoc.
  - rewrite (for_each_ScheduleTask (Some (AsTransferable (external_error e)), true)). simpl.
    rewrite !list_alter_alter_eq, (alter_lookup _ _ _ _ Hl). simpl.
    unfold settle_world, settlement_writes. simpl. by rewrite <- !app_assoc.
Qed.

Lemma heap_settle_world l s q w st :
  heap w !! l = Some st → heap (settle_world l s q w) !! l = Some (settled_state s).
Proof. intros Hl. simpl. apply list_lookup_insert_eq. by eapply lookup_lt_Some. Qed.

(** ** The dispatch without the promise option *)

Section DispatchFacts.

Context `{Collaborators}.

Lemma OptionalTransferOut_no_promise fuel v options w :
  promise options = false →
  OptionalTransferOut (S fuel) v options w = Some (w, dispatch v options).
Proof.
  intros Hp. simpl. rewrite Hp. unfold dispatch, native_capability.
  destruct (type options); try done.
  destruct (if IsObject v then Unwrap_TransferableHandle v else None); [done|].
  by destruct (CopyIfPrimitive v).
Qed.

Lemma TransferOut_via_pure optional v options w r :
  optional v options w = Some (w, r) →
  TransferOut_via optional v options w = Some (w, strict r).
Proof.
  intros Ho. unfold TransferOut_via, mbind, M_bind. rewrite Ho.
  by destruct r as [[t|]|e].
Qed.

Lemma TransferOut_via_pure_gen optional v options w w' t :
  optional v options w = Some (w', Ok (Some t)) →
  TransferOut_via optional v options w = Some (w', Ok t).
Proof. intros Ho. unfold TransferOut_via, mbind, M_bind. by rewrite Ho. Qed.

Lemma TransferOut_no_promise fuel v options w :
  promise options = false →
  TransferOut (S fuel) v options w = Some (w, strict (dispatch v options)).
Proof.
  intros Hp. apply TransferOut_via_pure. by apply OptionalTransferOut_no_promise.
Qed.

(** The three triggers of a holder whose options have the promise option
    off, on an unsettled state. *)
Lemma Resolved_unresolved fuel that v w st :
  promise (transfer_options that) = false →
  heap w !! state that = Some st → resolved st = false →
  Resolved (TransferOut (S fuel)) that v w
  = Some (settle_world (state that)
            (settlement false (strict (dispatch v (transfer_options that))))
            (waiting st) w, Ok tt).
Proof.
  intros Hp Hl Hr. unfold Resolved. apply Save_unresolved; [done..|].
  intros w'. by apply TransferOut_no_promise.
Qed.

Lemma Rejected_unresolved that v w st :
  heap w !! state that = Some st → resolved st = false →
  Rejected that v w
  = Some (settle_world (state that)
            (Some (AsTransferable (CopyIfPrimitiveOrError v)), true)
            (waiting st) w, Ok tt).
Proof.
  intros Hl Hr. unfold Rejected.
  by rewrite (Save_unresolved _ _ (Ok (AsTransferable (CopyIfPrimitiveOrError v))) _ _ _ Hl Hr).
Qed.

Lemma destroy_unresolved that w st :
  heap w !! state that = Some st → resolved st = false →
  TransferablePromiseHolder_destroy that w
  = Some (settle_world (state that) (abandoned, true) (waiting st) w, Ok tt).
Proof.
  intros Hl Hr. unfold TransferablePromiseHolder_destroy.
  by rewrite (Save_unresolved _ _
    (Ok (AsTransferable (ExternalCopyError Error "Promise was abandoned"%string))) _ _ _ Hl Hr).
Qed.

End DispatchFacts.

(** ** Materialisation in a destination isolate *)

Lemma TransferIn_resolved l isolate w st :
  heap w !! l = Some st → resolved st = true →
  TransferIn l isolate w
  = let resolver := {| resolver_isolate := isolate; resolver_id := next_resolver w |} in
    Some (add_settled {| settle_resolver := resolver; settle_reject := did_throw st;
                         settle_value := value st |} (bump_resolver w), Ok resolver).
Proof.
  intros Hl Hr. unfold TransferIn, Resolver_New, lock_state, Reject, Resolve, update,
    mbind, M_bind, mret, M_ret. simpl. rewrite Hl, Hr. simpl.
  by destruct (did_throw st).
Qed.

Lemma TransferIn_unresolved l isolate w st :
  heap w !! l = Some st → resolved st = false →
  TransferIn l isolate w
  = let resolver := {| resolver_isolate := isolate; resolver_id := next_resolver w |} in
    Some (set_heap (λ h, <[l := {| value := value st; waiting := waiting st ++ [resolver];
                                   did_throw := did_throw st; resolved := false |}]> h)
            (bump_resolver w), Ok resolver).
Proof.
  intros Hl Hr. unfold TransferIn, Resolver_New, lock_state, write_waiting, update,
    mbind, M_bind, mret, M_ret. simpl. rewrite Hl, Hr. simpl.
  unfold set_heap. simpl. by rewrite (alter_lookup _ _ _ _ Hl), Hr.
Qed.

(** ** Histories of one bridge *)

Lemma delivered_tasks_for s q : delivered (tasks_for s q) [] = q.
Proof.
  unfold delivered, tasks_for. rewrite app_nil_r, map_map. simpl. apply map_id.
Qed.

Lemma Forall_tasks_for s q :
  Forall (λ t : nat * ResolveTask, task_value t.2 = s.1 ∧ task_did_throw t.2 = s.2)
    (tasks_for s q).
Proof. unfold tasks_for. apply Forall_map, Forall_forall. by intros. Qed.

Lemma created_ids evs next r :
  r ∈ created evs next → next ≤ resolver_id r.
Proof.
  revert next. induction evs as [|[v|v| |isolate] evs IH]; intros next Hr; simpl in Hr.
  - by apply elem_of_nil in Hr.
  - by apply IH.
  - by apply IH.
  - by apply IH.
  - apply elem_of_cons in Hr as [->|Hr]; [done|]. apply IH in Hr. lia.
Qed.

(** The resolvers of a history are pairwise distinct. *)
Lemma NoDup_created evs next : NoDup (created evs next).
Proof.
  revert next. induction evs as [|[v|v| |isolate] evs IH]; intros next; simpl; try done.
  - constructor.
  - constructor; [|done]. intros Hr. apply created_ids in Hr. simpl in Hr. lia.
Qed.

Section HistoryFacts.

Context `{Collaborators}.

Variable fuel : nat.
Variable that : TransferablePromiseHolder.
Hypothesis promise_off : promise (transfer_options that) = false.

(** A trigger on an unsettled state settles it and drains its queue. *)
Lemma fire_trigger_unresolved e w st :
  is_trigger e = true →
  heap w !! state that = Some st → resolved st = false →
  ∃ s, fire (S fuel) that e w
       = Some (settle_world (state that) s (waiting st) w, Ok tt).
Proof.
  intros He Hl Hr. destruct e as [v|v| |isolate]; try done; simpl.
  - eexists. by apply Resolved_unresolved.
  - eexists. by apply Rejected_unresolved.
  - eexists. by apply destroy_unresolved.
Qed.

(** A trigger on a settled state changes nothing. *)
Lemma fire_trigger_settled e w st :
  is_trigger e = true →
  heap w !! state that = Some st → resolved st = true → waiting st = [] →
  fire (S fuel) that e w = Some (w, Ok tt).
Proof.
  intros He Hl Hr Hq. destruct e as [v|v| |isolate]; try done; simpl.
  all: by eapply Save_settled.
Qed.

(** What a history does to the bridge, from any state of it in which a
    settled state has an empty queue. *)
Lemma history_invariant evs : ∀ w st,
  heap w !! state that = Some st →
  (resolved st = true → waiting st = []) →
  ∃ w' st' tasks outcomes,
    run (S fuel) that evs w = Some (w', Ok tt)
    ∧ heap w' !! state that = Some st'
    ∧ scheduled w' = scheduled w ++ tasks
    ∧ settled w' = settled w ++ outcomes
    ∧ resolved st' = resolved st || existsb is_trigger evs
    ∧ (resolved st = true → st' = st ∧ writes w' = writes w ∧ tasks = [])
    ∧ (resolved st = false →
         writes w' = writes w ++
           (if resolved st' then settlement_writes (state that) (value st', did_throw st')
            else []))
    ∧ (if resolved st'
       then waiting st' = [] ∧
            delivered tasks outcomes = waiting st ++ created evs (next_resolver w)
       else tasks = [] ∧ outcomes = [] ∧
            waiting st' = waiting st ++ created evs (next_resolver w))
    ∧ Forall (λ t : nat * ResolveTask,
                task_value t.2 = value st' ∧ task_did_throw t.2 = did_throw st') tasks
    ∧ Forall (λ s, settle_value s = value st' ∧ settle_reject s = did_throw st') outcomes.
Proof.
  induction evs as [|e evs IH]; intros w st Hl Hinv.
  - exists w, st, [], []. simpl. rewrite !app_nil_r, orb_false_r.
    split_and!; try done.
    + intros ->. by rewrite app_nil_r.
    + destruct (resolved st) eqn:Hr; [|done]. by rewrite (Hinv eq_refl).
  - destruct (is_trigger e) eqn:He; destruct (resolved st) eqn:Hr;
      (assert (resolved st = true → waiting st = []) as Hinv'
         by (rewrite Hr; exact Hinv)); clear Hinv; rename Hinv' into Hinv.
    + (* a trigger after the settlement *)
      destruct (IH w st Hl Hinv) as (w' & st' & tasks & outcomes & Hrun & IH').
      exists w', st', tasks, outcomes. split.
      { unfold run in *. simpl.
        rewrite (bind_Ok _ _ _ _ _ (fire_trigger_settled e w st He Hl Hr (Hinv Hr))).
        exact Hrun. }
      destruct IH' as (? & ? & ? & -> & ? & ? & ? & ? & ?). rewrite Hr in *.
      split_and!; try done.
      destruct e; simplify_eq/=; done.
    + (* the trigger that settles *)
      destruct (fire_trigger_unresolved e w st He Hl Hr) as [s Hfire].
      pose proof (heap_settle_world _ s (waiting st) _ _ Hl) as Hl1.
      destruct (IH _ _ Hl1 (λ _, eq_refl))
        as (w' & st' & tasks & outcomes & Hrun & Hl' & Hsch & Hset & Hres & Hst & _ & Hdel & Ht & Ho).
      destruct (Hst eq_refl) as (-> & Hwr & ->). simpl in *.
      exists w', (settled_state s), (tasks_for s (waiting st)), outcomes. split.
      { unfold run in *. simpl. by rewrite (bind_Ok _ _ _ _ _ Hfire). }
      split_and!; try done.
      * by rewrite Hsch, app_nil_r.
      * by rewrite He.
      * destruct Hdel as [_ Hdel]. split; [done|].
        unfold delivered in *. simpl in Hdel. rewrite Hdel.
        f_equal; [|by destruct e].
        pose proof (delivered_tasks_for s (waiting st)) as Hq.
        unfold delivered in Hq. by rewrite app_nil_r in Hq.
      * apply Forall_tasks_for.
    + (* a materialisation after the settlement *)
      destruct e as [| | |isolate]; try done.
      pose proof (TransferIn_resolved _ isolate _ _ Hl Hr) as Hin. cbv zeta in Hin.
      match type of Hin with _ = Some (?x, _) => set (w1 := x) in * end.
      destruct (IH w1 st Hl Hinv)
        as (w' & st' & tasks & outcomes & Hrun & Hl' & Hsch & Hset & Hres & Hst & _ & Hdel & Ht & Ho).
      destruct (Hst Hr) as (-> & Hwr & ->). rewrite Hr in *. simpl in *.
      eexists w', st, [], (_ :: outcomes). split.
      { unfold run in *. simpl. unfold mbind at 1, M_bind at 1.
        rewrite (bind_Ok _ _ _ _ _ Hin). simpl. exact Hrun. }
      split_and!; try done.
      * by rewrite Hset, <- app_assoc.
      * rewrite Hr. destruct Hdel as [Hq Hdel]. split; [done|].
        unfold delivered in *. simpl in *. by rewrite Hdel, Hq.
      * by constructor.
    + (* a materialisation before the settlement *)
      destruct e as [| | |isolate]; try done.
      pose proof (TransferIn_unresolved _ isolate _ _ Hl Hr) as Hin. cbv zeta in Hin.
      match type of Hin with _ = Some (?x, _) => set (w1 := x) in * end.
      assert (heap w1 !! state that =
              Some {| value := value st;
                      waiting := waiting st ++
                        [{| resolver_isolate := isolate; resolver_id := next_resolver w |}];
                      did_throw := did_throw st; resolved := false |}) as Hl1.
      { simpl. apply list_lookup_insert_eq. by eapply lookup_lt_Some. }
      destruct (IH _ _ Hl1 (λ Hc, False_ind _ (diff_false_true Hc)))
        as (w' & st' & tasks & outcomes & Hrun & Hl' & Hsch & Hset & Hres & _ & Hwr & Hdel & Ht & Ho).
      simpl in *.
      exists w', st', tasks, outcomes. split.
      { unfold run in *. simpl. unfold mbind at 1, M_bind at 1.
        rewrite (bind_Ok _ _ _ _ _ Hin). simpl. exact Hrun. }
      split_and!; try done.
      by rewrite <- !app_assoc in Hdel.
Qed.

End HistoryFacts.

(** Registering waiters on an unsettled bridge queues their resolvers in
    the order of the calls and touches nothing else. *)
Lemma register_unresolved isolates : ∀ l w st,
  heap w !! l = Some st → resolved st = false →
  ∃ w' resolvers,
    register l isolates w = Some (w', Ok resolvers)
    ∧ map resolver_isolate resolvers = isolates
    ∧ heap w' !! l = Some {| value := value st; waiting := waiting st ++ resolvers;
                             did_throw := did_throw st; resolved := false |}
    ∧ scheduled w' = scheduled w
    ∧ settled w' = settled w.
Proof.
  induction isolates as [|isolate isolates IH]; intros l w st Hl Hr.
  - exists w, []. simpl. rewrite app_nil_r, <- Hr, State_eta. done.
  - pose proof (TransferIn_unresolved _ isolate _ _ Hl Hr) as Hin. cbv zeta in Hin.
    match type of Hin with _ = Some (?x, Ok ?r) => set (w1 := x) in *; set (r1 := r) in * end.
    assert (heap w1 !! l =
            Some {| value := value st; waiting := waiting st ++ [r1];
                    did_throw := did_throw st; resolved := false |}) as Hl1.
    { simpl. apply list_lookup_insert_eq. by eapply lookup_lt_Some. }
    destruct (IH _ _ _ Hl1 eq_refl) as (w' & rs & Hreg & Hiso & Hl' & Hsch & Hset).
    exists w', (r1 :: rs). simpl in *. split_and!; try done.
    + rewrite (bind_Ok _ _ _ _ _ Hin). rewrite (bind_Ok _ _ _ _ _ Hreg). done.
    + by rewrite Hiso.
    + by rewrite Hl', <- app_assoc.
Qed.

Section BridgeFacts.

Context `{Collaborators}.

(** The kind dispatch builds no promise of its own: a promise can only
    come out of it through a native handle. *)
Lemma dispatch_promise_origin v options k :
  strict (dispatch v options) = Ok (TransferablePromise k) →
  type options = TypeNone ∧
  ∃ ptr, native_capability v = Some ptr ∧
         TransferableHandle_TransferOut ptr = Ok (Some (TransferablePromise k)).
Proof.
  unfold dispatch, TransferWithType. destruct (type options); simpl.
  - destruct (native_capability v) as [ptr|].
    + destruct (TransferableHandle_TransferOut ptr) as [[t|]|e] eqn:Hh; simpl; try done.
      intros [= ->]. eauto.
    + destruct (CopyIfPrimitive v); simpl; [done|].
      destruct (fallback options); simpl; try done; by destruct (Copy v).
  - by destruct (Copy v).
  - by destruct (Copy v).
  - done.
Qed.

(** One unfolding of the recursion. *)
Lemma OptionalTransferOut_S fuel v options :
  OptionalTransferOut (S fuel) v options
  = if promise options then
      if IsPromise v then
        t ← TransferablePromise_of_promise (TransferOut fuel) v options; mret (Some t)
      else
        t ← TransferablePromise_of_value (TransferOut fuel) v options; mret (Some t)
    else
      match type options with
      | TypeNone =>
          match (if IsObject v then Unwrap_TransferableHandle v else None) with
          | Some ptr => lift (TransferableHandle_TransferOut ptr)
          | None =>
              match CopyIfPrimitive v with
              | Some result => mret (Some (AsTransferable result))
              | None => lift (TransferWithType v (fallback options))
              end
          end
      | _ => lift (TransferWithType v (type options))
      end.
Proof. done. Qed.

(** The promise branch of lines 228-234, in closed form. *)
Lemma OptionalTransferOut_promise fuel v options w :
  promise options = true →
  OptionalTransferOut (S (S fuel)) v options w
  = Some (bridge_world v options w, Ok (Some (TransferablePromise (length (heap w))))).
Proof.
  intros Hp. rewrite OptionalTransferOut_S, Hp.
  set (l := length (heap w)).
  set (w0 := set_heap (λ h, h ++ [TransferablePromiseState_new]) w).
  assert (heap w0 !! l = Some TransferablePromiseState_new) as Hl0.
  { simpl. by rewrite lookup_app_r, Nat.sub_diag. }
  assert (make_shared_state w = Some (w0, Ok l)) as Hnew by done.
  pose proof (Resolved_unresolved fuel (MakeHolder l options)) as HR.
  pose proof (Rejected_unresolved (MakeHolder l options)) as HJ.
  destruct (IsPromise v) eqn:Hv.
  - destruct v as [| | | | | | | |id [| |] result]; try done;
      unfold TransferablePromise_of_promise, Accept.
    + eapply bind_Ok_eq; [|done].
      rewrite (bind_Ok _ _ _ _ _ Hnew).
      by rewrite (bind_Ok _ _ _ _ _ (HR result w0 _ eq_refl Hl0 eq_refl)).
    + eapply bind_Ok_eq; [|done].
      rewrite (bind_Ok _ _ _ _ _ Hnew).
      by rewrite (bind_Ok _ _ _ _ _ (HJ result w0 _ Hl0 eq_refl)).
  - unfold TransferablePromise_of_value.
    eapply bind_Ok_eq.
    { rewrite (bind_Ok _ _ _ _ _ Hnew).
      by rewrite (bind_Ok _ _ _ _ _ (HR v w0 _ eq_refl Hl0 eq_refl)). }
    by destruct v.
Qed.

End BridgeFacts.

(** ** The protocol on concrete inputs *)

(** The scenarios of the spec: a plain value transferred as a promise is an
    already-resolved promise; a rejected promise is an already-rejected one
    that carries a copy of the error; a conflict of kinds is refused. *)
Example transfer_seven_as_promise :
  (t ← TransferOut (H := spec_codec) 2 (Number 7)
         {| type := TypeNone; fallback := TypeNone; promise := true |};
   match t with
   | TransferablePromise l => TransferIn l 1;; lock_state l
   | _ => stuck
   end) empty_world
  = Some ({| heap := [settled_state (Some (AsTransferable (ExternalCopyValue (Number 7))), false)];
             reactions := []; scheduled := [];
             settled := [{| settle_resolver := {| resolver_isolate := 1; resolver_id := 0 |};
                            settle_reject := false;
                            settle_value := Some (AsTransferable (ExternalCopyValue (Number 7))) |}];
             writes := settlement_writes 0
                         (Some (AsTransferable (ExternalCopyValue (Number 7))), false);
             next_resolver := 1 |},
          Ok (settled_state (Some (AsTransferable (ExternalCopyValue (Number 7))), false))).
Proof. reflexivity. Qed.

Example transfer_rejected_promise :
  (t ← TransferOut (H := spec_codec) 2
         (Promise 3 kRejected (ErrorObject "Error" "boom"))
         {| type := TypeNone; fallback := TypeNone; promise := true |};
   match t with
   | TransferablePromise l => TransferIn l 1;; lock_state l
   | _ => stuck
   end) empty_world
  = Some ({| heap := [settled_state (Some (AsTransferable (ExternalCopyError Error "boom")), true)];
             reactions := []; scheduled := [];
             settled := [{| settle_resolver := {| resolver_isolate := 1; resolver_id := 0 |};
                            settle_reject := true;
                            settle_value := Some (AsTransferable (ExternalCopyError Error "boom")) |}];
             writes := settlement_writes 0
                         (Some (AsTransferable (ExternalCopyError Error "boom")), true);
             next_resolver := 1 |},
          Ok (settled_state (Some (AsTransferable (ExternalCopyError Error "boom")), true))).
Proof. reflexivity. Qed.

Example transfer_copy_42 :
  TransferOut (H := spec_codec) 1 (Number 42)
    {| type := TypeCopy; fallback := TypeNone; promise := false |} empty_world
  = Some (empty_world, Ok (AsTransferable (ExternalCopyValue (Number 42)))).
Proof. reflexivity. Qed.

Example parse_copy_and_promise :
  TransferableOptions_new {[ "copy"%string := true; "promise"%string := true ]} TypeReference
  = Ok {| type := TypeCopy; fallback := TypeReference; promise := true |}.
Proof. reflexivity. Qed.

Example parse_conflict :
  TransferableOptions_new {[ "copy"%string := true; "reference"%string := true ]} TypeNone
  = Throw (RuntimeTypeError "Only one of `copy`, `externalCopy`, or `reference` may be set"%string).
Proof. reflexivity. Qed.

(** A nested transfer with no fuel left has no behaviour in the model: the
    outer call needs fuel for the call the holder makes. *)
Example transfer_without_fuel :
  TransferOut (H := spec_codec) 1 (Number 7)
    {| type := TypeNone; fallback := TypeNone; promise := true |} empty_world
  = None.
Proof. reflexivity. Qed.

(** ** The properties of the protocol *)

(** C1.  A bridge is settled exactly once.  Take a bridge state as
    [std::make_shared] creates it and any history of fulfilment and rejection
    continuations, destructions of the holder and materialisations.  The
    history runs to its end; the state is settled exactly if the history has
    a trigger; the settlement fields were each assigned once, with the stored
    value and flag, and never if no trigger fired; once the state is settled
    every further history leaves the whole state and the record of
    assignments as they are; and every resolver created by a materialisation
    was handed one outcome, the stored value with the stored rejection flag
    (the resolvers handed an outcome are those created, each once), or waits
    in the queue while the bridge is unsettled. *)
Theorem settled_exactly_once `{Collaborators} (fuel l : nat)
    (options : TransferableOptions) (w : World) (evs : list Event) :
  heap w !! l = Some TransferablePromiseState_new →
  let that := MakeHolder l options in
  ∃ w' st' tasks outcomes,
    run (S fuel) that evs w = Some (w', Ok tt)
    ∧ heap w' !! l = Some st'
    ∧ resolved st' = existsb is_trigger evs
    ∧ writes w' = writes w ++
        (if resolved st' then settlement_writes l (value st', did_throw st') else [])
    ∧ (resolved st' = true →
       ∀ later, ∃ w'',
         run (S fuel) that later w' = Some (w'', Ok tt)
         ∧ heap w'' !! l = Some st'
         ∧ writes w'' = writes w')
    ∧ scheduled w' = scheduled w ++ tasks
    ∧ settled w' = settled w ++ outcomes
    ∧ Forall (λ t : nat * ResolveTask,
                task_value t.2 = value st' ∧ task_did_throw t.2 = did_throw st') tasks
    ∧ Forall (λ s, settle_value s = value st' ∧ settle_reject s = did_throw st') outcomes
    ∧ NoDup (created evs (next_resolver w))
    ∧ (if resolved st'
       then delivered tasks outcomes = created evs (next_resolver w)
       else tasks = [] ∧ outcomes = [] ∧ waiting st' = created evs (next_resolver w)).
Proof.
  intros Hl that.
  destruct (history_invariant fuel that eq_refl evs w _ Hl (λ _, eq_refl))
    as (w' & st' & tasks & outcomes & Hrun & Hl' & Hsch & Hset & Hres & _ & Hwr & Hdel & Ht & Ho).
  exists w', st', tasks, outcomes. simpl in *.
  split_and!; try done.
  - by apply Hwr.
  - intros Hr later.
    assert (resolved st' = true → waiting st' = []) as Hq.
    { intros _. rewrite Hr in Hdel. by destruct Hdel. }
    destruct (history_invariant fuel that eq_refl later w' _ Hl' Hq)
      as (w'' & st'' & ? & ? & Hrun' & Hl'' & _ & _ & _ & Hst & _).
    destruct (Hst Hr) as (-> & ? & _). by exists w''.
  - apply NoDup_created.
  - destruct (resolved st'); [by destruct Hdel|done].
Qed.

Lemma settled_exactly_once_witness :
  heap fresh_world !! 0 = Some TransferablePromiseState_new
  ∧ let that := MakeHolder 0 {| type := TypeNone; fallback := TypeNone; promise := true |} in
    let evs := [EvTransferIn 1; EvResolved (Number 7); EvDestroy; EvTransferIn 2;
                EvRejected Null] in
    ∃ w' st' tasks outcomes,
      run (H := spec_codec) 1 that evs fresh_world = Some (w', Ok tt)
      ∧ heap w' !! 0 = Some st'
      ∧ resolved st' = existsb is_trigger evs
      ∧ writes w' = writes fresh_world ++
          (if resolved st' then settlement_writes 0 (value st', did_throw st') else [])
      ∧ (resolved st' = true →
         ∀ later, ∃ w'',
           run (H := spec_codec) 1 that later w' = Some (w'', Ok tt)
           ∧ heap w'' !! 0 = Some st'
           ∧ writes w'' = writes w')
      ∧ scheduled w' = scheduled fresh_world ++ tasks
      ∧ settled w' = settled fresh_world ++ outcomes
      ∧ Forall (λ t : nat * ResolveTask,
                  task_value t.2 = value st' ∧ task_did_throw t.2 = did_throw st') tasks
      ∧ Forall (λ s, settle_value s = value st' ∧ settle_reject s = did_throw st') outcomes
      ∧ NoDup (created evs (next_resolver fresh_world))
      ∧ (if resolved st'
         then delivered tasks outcomes = created evs (next_resolver fresh_world)
         else tasks = [] ∧ outcomes = [] ∧
              waiting st' = created evs (next_resolver fresh_world)).
Proof.
  split; [reflexivity|].
  apply (settled_exactly_once (H := spec_codec) 0 0). reflexivity.
Defined.

(** C2.  Abandonment.  Destroying a holder whose state is unsettled settles
    the state as a rejection with the error "Promise was abandoned"; the
    whole queue is drained, and for each of its resolvers, however many, one
    task is scheduled that carries the error and the rejection flag, so that
    running it rejects the resolver; a destination that materialises the
    transferable afterwards has its resolver rejected with the error on the
    spot and is not queued. *)
Theorem abandonment_rejects_every_waiter (this : TransferablePromiseHolder)
    (w : World) (st : TransferablePromiseStateStruct) :
  heap w !! state this = Some st →
  resolved st = false →
  ∃ w',
    TransferablePromiseHolder_destroy this w = Some (w', Ok tt)
    ∧ heap w' !! state this
      = Some {| value := abandoned; waiting := []; did_throw := true; resolved := true |}
    ∧ scheduled w' = scheduled w ++ tasks_for (abandoned, true) (waiting st)
    ∧ length (tasks_for (abandoned, true) (waiting st)) = length (waiting st)
    ∧ Forall (λ t : nat * ResolveTask, Run t.2 = Reject (task_resolver t.2) abandoned)
        (tasks_for (abandoned, true) (waiting st))
    ∧ ∀ isolate, ∃ w'',
        let resolver := {| resolver_isolate := isolate; resolver_id := next_resolver w' |} in
        TransferIn (state this) isolate w' = Some (w'', Ok resolver)
        ∧ heap w'' = heap w'
        ∧ scheduled w'' = scheduled w'
        ∧ settled w'' = settled w' ++
            [{| settle_resolver := resolver; settle_reject := true;
                settle_value := abandoned |}].
Proof.
  intros Hl Hr. eexists. split; [by apply destroy_unresolved|].
  pose proof (heap_settle_world _ (abandoned, true) (waiting st) _ _ Hl) as Hl'.
  split_and!; try done.
  - unfold tasks_for. by rewrite length_map.
  - unfold tasks_for. apply Forall_map, Forall_forall. by intros.
  - intros isolate. eexists. cbv zeta.
    rewrite (TransferIn_resolved _ isolate _ _ Hl' eq_refl). done.
Qed.

Lemma abandonment_rejects_every_waiter_witness :
  let this := {| state := 0;
                 transfer_options := {| type := TypeCopy; fallback := TypeNone;
                                        promise := false |} |} in
  let q := [ {| resolver_isolate := 4; resolver_id := 0 |};
             {| resolver_isolate := 2; resolver_id := 1 |};
             {| resolver_isolate := 4; resolver_id := 2 |} ] in
  let st := {| value := None; waiting := q; did_throw := false; resolved := false |} in
  let w := {| heap := [st]; reactions := []; scheduled := []; settled := []; writes := [];
              next_resolver := 3 |} in
  heap w !! state this = Some st
  ∧ resolved st = false
  ∧ ∃ w',
      TransferablePromiseHolder_destroy this w = Some (w', Ok tt)
      ∧ heap w' !! state this
        = Some {| value := abandoned; waiting := []; did_throw := true; resolved := true |}
      ∧ scheduled w' = scheduled w ++ tasks_for (abandoned, true) (waiting st)
      ∧ length (tasks_for (abandoned, true) (waiting st)) = length (waiting st)
      ∧ Forall (λ t : nat * ResolveTask, Run t.2 = Reject (task_resolver t.2) abandoned)
          (tasks_for (abandoned, true) (waiting st))
      ∧ ∀ isolate, ∃ w'',
          let resolver := {| resolver_isolate := isolate; resolver_id := next_resolver w' |} in
          TransferIn (state this) isolate w' = Some (w'', Ok resolver)
          ∧ heap w'' = heap w'
          ∧ scheduled w'' = scheduled w'
          ∧ settled w'' = settled w' ++
              [{| settle_resolver := resolver; settle_reject := true;
                  settle_value := abandoned |}].
Proof.
  cbv zeta. split; [reflexivity|]. split; [reflexivity|].
  apply abandonment_rejects_every_waiter; reflexivity.
Defined.

(** C3.  A failure of the settlement callback does not leave the settlement
    procedure.  When [Save] runs on an unsettled state and its callback fails
    with the exception [e], [Save] returns normally; the state is settled,
    the settled value is the structurally-copyable copy of [e], the rejection
    flag is set whatever flag [Save] was called with, and every queued
    resolver gets a task that rejects it with that copy. *)
Theorem settlement_captures_failure (did_throw_arg : bool) (callback : M Transferable)
    (e : Exception) (this : TransferablePromiseHolder) (w : World)
    (st : TransferablePromiseStateStruct) :
  heap w !! state this = Some st →
  resolved st = false →
  (∀ w0, callback w0 = Some (w0, Throw e)) →
  let error := Some (AsTransferable (external_error e)) in
  ∃ w',
    Save did_throw_arg callback this w = Some (w', Ok tt)
    ∧ heap w' !! state this
      = Some {| value := error; waiting := []; did_throw := true; resolved := true |}
    ∧ scheduled w' = scheduled w ++ tasks_for (error, true) (waiting st)
    ∧ writes w' = writes w ++ settlement_writes (state this) (error, true).
Proof.
  intros Hl Hr Hcb error. eexists. split.
  - by apply (Save_unresolved _ _ (Throw e)).
  - split_and!; try done.
    exact (heap_settle_world _ (error, true) _ _ _ Hl).
Qed.

Lemma settlement_captures_failure_witness :
  let options := {| type := TypeNone; fallback := TypeNone; promise := false |} in
  let this := {| state := 0; transfer_options := options |} in
  let callback := TransferOut (H := spec_codec) 1 (PlainObject 7) options in
  let e := RuntimeTypeError "A non-transferable value was passed"%string in
  let q := [ {| resolver_isolate := 4; resolver_id := 0 |} ] in
  let st := {| value := None; waiting := q; did_throw := false; resolved := false |} in
  let w := {| heap := [st]; reactions := []; scheduled := []; settled := []; writes := [];
              next_resolver := 1 |} in
  heap w !! state this = Some st
  ∧ resolved st = false
  ∧ (∀ w0, callback w0 = Some (w0, Throw e))
  ∧ let error := Some (AsTransferable (external_error e)) in
    ∃ w',
      Save false callback this w = Some (w', Ok tt)
      ∧ heap w' !! state this
        = Some {| value := error; waiting := []; did_throw := true; resolved := true |}
      ∧ scheduled w' = scheduled w ++ tasks_for (error, true) (waiting st)
      ∧ writes w' = writes w ++ settlement_writes (state this) (error, true).
Proof.
  cbv zeta. split; [reflexivity|]. split; [reflexivity|]. split; [reflexivity|].
  apply settlement_captures_failure; reflexivity.
Defined.

(** C7.  Delivery in registration order.  Destinations materialise the
    transferable of an unsettled bridge one after the other, their resolvers
    being W1..Wn in that order, and then a trigger fires.  The settlement
    leaves the queue empty and schedules exactly one task per resolver that
    was waiting, the earlier queue first and then W1..Wn in this order, each
    on the isolate of its resolver. *)
Theorem delivery_in_registration_order `{Collaborators} (fuel l : nat)
    (options : TransferableOptions) (w : World) (st : TransferablePromiseStateStruct)
    (isolates : list nat) (e : Event) :
  heap w !! l = Some st →
  resolved st = false →
  is_trigger e = true →
  let that := MakeHolder l options in
  ∃ w' resolvers s,
    (resolvers ← register l isolates; fire (S fuel) that e;; mret resolvers) w
    = Some (w', Ok resolvers)
    ∧ map resolver_isolate resolvers = isolates
    ∧ heap w' !! l = Some {| value := s.1; waiting := []; did_throw := s.2; resolved := true |}
    ∧ scheduled w' = scheduled w ++ tasks_for s (waiting st ++ resolvers)
    ∧ map (λ t : nat * ResolveTask, task_resolver t.2) (tasks_for s (waiting st ++ resolvers))
      = waiting st ++ resolvers
    ∧ Forall (λ t : nat * ResolveTask, t.1 = resolver_isolate (task_resolver t.2))
        (tasks_for s (waiting st ++ resolvers)).
Proof.
  intros Hl Hr He that.
  destruct (register_unresolved isolates _ _ _ Hl Hr)
    as (w1 & resolvers & Hreg & Hiso & Hl1 & Hsch & _).
  destruct (fire_trigger_unresolved fuel that eq_refl e w1 _ He Hl1 eq_refl) as [s Hfire].
  eexists _, resolvers, s. split.
  { rewrite (bind_Ok _ _ _ _ _ Hreg). by rewrite (bind_Ok _ _ _ _ _ Hfire). }
  split_and!; try done.
  - by apply (heap_settle_world _ _ _ _ _ Hl1).
  - simpl. by rewrite Hsch.
  - pose proof (delivered_tasks_for s (waiting st ++ resolvers)) as Hq.
    unfold delivered in Hq. by rewrite app_nil_r in Hq.
  - unfold tasks_for. apply Forall_map, Forall_forall. by intros.
Qed.

Lemma delivery_in_registration_order_witness :
  let options := {| type := TypeNone; fallback := TypeNone; promise := true |} in
  heap fresh_world !! 0 = Some TransferablePromiseState_new
  ∧ resolved TransferablePromiseState_new = false
  ∧ is_trigger (EvResolved (String "done")) = true
  ∧ let that := MakeHolder 0 options in
    ∃ w' resolvers s,
      (resolvers ← register 0 [5; 3; 5];
       fire (H := spec_codec) 1 that (EvResolved (String "done"));;
       mret resolvers) fresh_world
      = Some (w', Ok resolvers)
      ∧ map resolver_isolate resolvers = [5; 3; 5]
      ∧ heap w' !! 0 = Some {| value := s.1; waiting := []; did_throw := s.2; resolved := true |}
      ∧ scheduled w' = scheduled fresh_world
                       ++ tasks_for s (waiting TransferablePromiseState_new ++ resolvers)
      ∧ map (λ t : nat * ResolveTask, task_resolver t.2)
          (tasks_for s (waiting TransferablePromiseState_new ++ resolvers))
        = waiting TransferablePromiseState_new ++ resolvers
      ∧ Forall (λ t : nat * ResolveTask, t.1 = resolver_isolate (task_resolver t.2))
          (tasks_for s (waiting TransferablePromiseState_new ++ resolvers)).
Proof.
  cbv zeta. split; [reflexivity|]. split; [reflexivity|]. split; [reflexivity|].
  apply (delivery_in_registration_order (H := spec_codec) 0 0); reflexivity.
Defined.

(** C4.  The promise option comes first.  With the promise option set, the
    optional transfer-out of any value, under any kind and fallback, yields a
    [TransferablePromise] on a state it has just created, and creates that
    one state only.  The holder keeps the caller's kind and fallback with the
    promise option off.  A pending promise gets the holder attached through
    its continuations and the state stays unsettled; a fulfilled promise and
    a value that is not a promise settle the state at once with the strict
    transfer of the result, respectively of the value, under the holder's
    options, which runs with no promise option and creates no bridge; a
    rejected promise settles it as a rejection. *)
Theorem promise_option_always_wraps `{Collaborators} (fuel : nat) (v : Value)
    (options : TransferableOptions) (w : World) :
  promise options = true →
  let l := length (heap w) in
  let that := MakeHolder l options in
  ∃ w',
    OptionalTransferOut (S (S fuel)) v options w
    = Some (w', Ok (Some (TransferablePromise l)))
    ∧ length (heap w') = S (length (heap w))
    ∧ transfer_options that
      = {| type := type options; fallback := fallback options; promise := false |}
    ∧ match v with
      | Promise id kPending _ =>
          heap w' !! l = Some TransferablePromiseState_new
          ∧ reactions w' = reactions w ++ [(id, that)]
      | Promise id kFulfilled result =>
          settled_with_inner_transfer (S fuel) that result w'
      | Promise id kRejected result =>
          heap w' !! l
          = Some (settled_state (Some (AsTransferable (CopyIfPrimitiveOrError result)), true))
      | _ => settled_with_inner_transfer (S fuel) that v w'
      end.
Proof.
  intros Hp l that. exists (bridge_world v options w).
  split; [by apply OptionalTransferOut_promise|].
  assert (heap (set_heap (λ h, h ++ [TransferablePromiseState_new]) w) !! l
          = Some TransferablePromiseState_new) as Hl0.
  { simpl. by rewrite lookup_app_r, Nat.sub_diag. }
  assert (∀ x, settled_with_inner_transfer (S fuel) that x
                 (settle_world l (settlement false (strict (dispatch x (transfer_options that))))
                    [] (set_heap (λ h, h ++ [TransferablePromiseState_new]) w))) as Hinner.
  { intros x. exists (strict (dispatch x (transfer_options that))). split_and!.
    - intros u. by apply TransferOut_no_promise.
    - exact (heap_settle_world _ _ _ _ _ Hl0).
    - intros k Hk. by destruct (dispatch_promise_origin _ _ _ Hk). }
  split; [|split; [done|]].
  - destruct v as [| | | | | | | |id [| |] result]; simpl;
      rewrite ?length_insert, length_app; simpl; lia.
  - destruct v as [| | | | | | | |id [| |] result]; try apply Hinner.
    + done.
    + exact (heap_settle_world _ _ _ _ _ Hl0).
Qed.

Lemma promise_option_always_wraps_witness :
  let options := {| type := TypeReference; fallback := TypeNone; promise := true |} in
  let v := PlainObject 7 in
  promise options = true
  ∧ let l := length (heap empty_world) in
    let that := MakeHolder l options in
    ∃ w',
      OptionalTransferOut (H := spec_codec) 2 v options empty_world
      = Some (w', Ok (Some (TransferablePromise l)))
      ∧ length (heap w') = S (length (heap empty_world))
      ∧ transfer_options that
        = {| type := type options; fallback := fallback options; promise := false |}
      ∧ settled_with_inner_transfer (H := spec_codec) 1 that v w'.
Proof.
  cbv zeta. split; [reflexivity|].
  apply (promise_option_always_wraps (H := spec_codec) 0 (PlainObject 7)). reflexivity.
Defined.

(** The claim C5 read on one settlement fails for a rejection: with the kind
    Reference, the rejection of the originating promise with a plain object
    stores the copy made by [CopyIfPrimitiveOrError], not the reference the
    kind asks for. *)
Lemma rejection_ignores_kind :
  ¬ stored_by_kind (H := spec_codec) 1
      (MakeHolder 0 {| type := TypeReference; fallback := TypeNone; promise := true |})
      true (PlainObject 7) fresh_world.
Proof.
  intros (w' & st' & Hrun & Hl & Hv).
  vm_compute in Hrun. injection Hrun as <-.
  vm_compute in Hl. injection Hl as <-.
  vm_compute in Hv. discriminate Hv.
Qed.

(** Whatever the codec is, a rejection on an unsettled bridge stores a copy,
    never the reference that the kind Reference asks for. *)
Lemma rejection_stores_a_copy `{Collaborators} (fuel l : nat) (fb : OptionsType)
    (p : bool) (v : Value) (w : World) (st : TransferablePromiseStateStruct) :
  heap w !! l = Some st →
  resolved st = false →
  ¬ stored_by_kind fuel (MakeHolder l {| type := TypeReference; fallback := fb; promise := p |})
      true v w.
Proof.
  intros Hw Hr (w' & st' & Hrun & Hl & Hv). simpl in Hrun, Hl, Hv.
  rewrite (Rejected_unresolved (MakeHolder l _) _ _ _ Hw Hr) in Hrun.
  injection Hrun as <-.
  rewrite (heap_settle_world _ _ _ _ _ Hw) in Hl. injection Hl as <-.
  discriminate Hv.
Qed.

(** C5, amended.  On an unsettled bridge, a fulfilment of the originating
    promise stores the value produced by the strict transfer of the result
    under the caller's kind and fallback; a rejection stores the copy that
    [CopyIfPrimitiveOrError] makes of the reason, with the rejection flag
    set, whatever the kind is. *)
Theorem fulfilment_stored_by_kind `{Collaborators} (fuel l : nat)
    (options : TransferableOptions) (v : Value) (w : World)
    (st : TransferablePromiseStateStruct) :
  heap w !! l = Some st →
  resolved st = false →
  let that := MakeHolder l options in
  type (transfer_options that) = type options
  ∧ fallback (transfer_options that) = fallback options
  ∧ stored_by_kind (S fuel) that false v w
  ∧ ∃ w',
      settle_promise (S fuel) that true v w = Some (w', Ok tt)
      ∧ heap w' !! l
        = Some {| value := Some (AsTransferable (CopyIfPrimitiveOrError v)); waiting := [];
                  did_throw := true; resolved := true |}.
Proof.
  intros Hl Hr that. split; [done|]. split; [done|]. split.
  - eexists _, _. split; [by apply (Resolved_unresolved fuel that v w st eq_refl)|].
    split; [exact (heap_settle_world _ _ _ _ _ Hl)|]. done.
  - eexists. split; [by apply (Rejected_unresolved that v w st)|].
    exact (heap_settle_world _ (_, true) _ _ _ Hl).
Qed.

Lemma fulfilment_stored_by_kind_witness :
  let options := {| type := TypeReference; fallback := TypeNone; promise := true |} in
  let v := PlainObject 7 in
  heap fresh_world !! 0 = Some TransferablePromiseState_new
  ∧ resolved TransferablePromiseState_new = false
  ∧ let that := MakeHolder 0 options in
    type (transfer_options that) = type options
    ∧ fallback (transfer_options that) = fallback options
    ∧ stored_by_kind (H := spec_codec) 1 that false v fresh_world
    ∧ ∃ w',
        settle_promise (H := spec_codec) 1 that true v fresh_world = Some (w', Ok tt)
        ∧ heap w' !! 0
          = Some {| value := Some (AsTransferable (spec_CopyIfPrimitiveOrError v));
                    waiting := []; did_throw := true; resolved := true |}.
Proof.
  cbv zeta. split; [reflexivity|]. split; [reflexivity|].
  apply (fulfilment_stored_by_kind (H := spec_codec) 0 0 _ _ fresh_world
           TransferablePromiseState_new); reflexivity.
Defined.

(** C6.  Dispatch with the kind unset and no promise option.  The store is
    left alone and the result is found in this order: the result of the
    native handle if the value is an object that wraps one; else the copy of
    the fast path if [CopyIfPrimitive] takes the value, whatever the fallback
    is; else the transfer with the fallback in place of the kind.  If the
    codec takes every realm-independent value, as the spec has it, such a
    value that wraps no handle goes down the fast path. *)
Theorem unset_kind_dispatch_order `{Collaborators} (fuel : nat) (v : Value)
    (options : TransferableOptions) (w : World) :
  type options = TypeNone →
  promise options = false →
  (∀ ptr, native_capability v = Some ptr →
     OptionalTransferOut (S fuel) v options w
     = Some (w, TransferableHandle_TransferOut ptr))
  ∧ (∀ copy, native_capability v = None → CopyIfPrimitive v = Some copy →
       ∀ other, OptionalTransferOut (S fuel) v (set_fallback other options) w
                = Some (w, Ok (Some (AsTransferable copy))))
  ∧ (native_capability v = None → CopyIfPrimitive v = None →
       OptionalTransferOut (S fuel) v options w
       = Some (w, TransferWithType v (fallback options)))
  ∧ ((∀ x, realm_independent x = true → is_Some (CopyIfPrimitive x)) →
     realm_independent v = true →
     ∃ copy, ∀ other, OptionalTransferOut (S fuel) v (set_fallback other options) w
                      = Some (w, Ok (Some (AsTransferable copy)))).
Proof.
  intros Ht Hp.
  assert (∀ other, OptionalTransferOut (S fuel) v (set_fallback other options) w
                   = Some (w, dispatch v (set_fallback other options))) as Hgo.
  { intros other. by apply OptionalTransferOut_no_promise. }
  split_and!.
  - intros ptr Hn. rewrite OptionalTransferOut_no_promise by done.
    unfold dispatch. by rewrite Ht, Hn.
  - intros copy Hn Hc other. rewrite Hgo. unfold dispatch. simpl. by rewrite Ht, Hn, Hc.
  - intros Hn Hc. rewrite OptionalTransferOut_no_promise by done.
    unfold dispatch. by rewrite Ht, Hn, Hc.
  - intros Hcodec Hv. destruct (Hcodec v Hv) as [copy Hc]. exists copy. intros other.
    rewrite Hgo. unfold dispatch. simpl. rewrite Ht, Hc.
    by destruct v.
Qed.

Lemma unset_kind_dispatch_order_witness :
  let options := {| type := TypeNone; fallback := TypeReference; promise := false |} in
  let v := String "text" in
  type options = TypeNone
  ∧ promise options = false
  ∧ native_capability v = None
  ∧ spec_CopyIfPrimitive v = Some (ExternalCopyValue v)
  ∧ (∀ x, realm_independent x = true → is_Some (spec_CopyIfPrimitive x))
  ∧ realm_independent v = true
  ∧ ∀ other, OptionalTransferOut (H := spec_codec) 1 v (set_fallback other options) empty_world
             = Some (empty_world, Ok (Some (AsTransferable (ExternalCopyValue v)))).
Proof.
  cbv zeta. split; [reflexivity|]. split; [reflexivity|]. split; [reflexivity|].
  split; [reflexivity|].
  split; [intros x Hx; destruct x; try discriminate Hx; eexists; reflexivity|].
  split; [reflexivity|].
  apply (unset_kind_dispatch_order (H := spec_codec) 0 (String "text")
           {| type := TypeNone; fallback := TypeReference; promise := false |} empty_world
           eq_refl eq_refl); reflexivity.
Defined.

(** C8.  Nothing to transfer.  For a value that wraps no native handle and
    that [CopyIfPrimitive] does not take, with the kind and the fallback
    unset and no promise option, the optional transfer-out returns nothing
    and the strict one throws "A non-transferable value was passed", both
    without touching the store.  And for every value, options and store, the
    strict form returns a transferable exactly when the optional form yields
    that transferable. *)
Theorem strict_transfer_raises `{Collaborators} (fuel : nat) (v : Value)
    (options : TransferableOptions) (w : World) :
  native_capability v = None →
  CopyIfPrimitive v = None →
  type options = TypeNone →
  fallback options = TypeNone →
  promise options = false →
  OptionalTransferOut (S fuel) v options w = Some (w, Ok None)
  ∧ TransferOut (S fuel) v options w
    = Some (w, Throw (RuntimeTypeError "A non-transferable value was passed"%string))
  ∧ ∀ n x o u u' t,
      TransferOut n x o u = Some (u', Ok t)
      ↔ OptionalTransferOut n x o u = Some (u', Ok (Some t)).
Proof.
  intros Hn Hc Ht Hf Hp.
  assert (dispatch v options = Ok None) as Hd.
  { unfold dispatch. by rewrite Ht, Hn, Hc, Hf. }
  split_and!.
  - by rewrite OptionalTransferOut_no_promise, Hd.
  - by rewrite TransferOut_no_promise, Hd.
  - intros n x o u u' t. unfold TransferOut, TransferOut_via, mbind, M_bind.
    destruct (OptionalTransferOut n x o u) as [[u1 [[t1|]|e]]|];
      unfold mret, M_ret, throw; split; intros Heq; by simplify_eq.
Qed.

Lemma strict_transfer_raises_witness :
  let options := {| type := TypeNone; fallback := TypeNone; promise := false |} in
  let v := PlainObject 7 in
  native_capability v = None
  ∧ spec_CopyIfPrimitive v = None
  ∧ type options = TypeNone
  ∧ fallback options = TypeNone
  ∧ promise options = false
  ∧ OptionalTransferOut (H := spec_codec) 1 v options empty_world = Some (empty_world, Ok None)
  ∧ TransferOut (H := spec_codec) 1 v options empty_world
    = Some (empty_world, Throw (RuntimeTypeError "A non-transferable value was passed"%string))
  ∧ ∀ n x o u u' t,
      TransferOut (H := spec_codec) n x o u = Some (u', Ok t)
      ↔ OptionalTransferOut (H := spec_codec) n x o u = Some (u', Ok (Some t)).
Proof.
  cbv zeta. split; [reflexivity|]. split; [reflexivity|]. split; [reflexivity|].
  split; [reflexivity|]. split; [reflexivity|].
  apply (strict_transfer_raises (H := spec_codec) 0 (PlainObject 7)); reflexivity.
Defined.

(** C9.  Parsing the options.  For every options bag and fallback, the
    constructor succeeds if at most one of the flags copy, externalCopy and
    reference is set, with the kind of the flag that is set, or the unset
    kind if none is; with the caller's fallback; and with the promise flag of
    the bag.  It throws the type error "Only one of `copy`, `externalCopy`,
    or `reference` may be set" if two or more are set.  Setting the promise
    flag of the bag to any value changes neither which of the two happens nor
    the kind, only the promise option of the result. *)
Theorem parse_options_exclusive (options : gmap string bool) (fallback_type : OptionsType) :
  TransferableOptions_new options fallback_type
  = (if decide (flags_set options ≤ 1) then
       Ok {| type := requested_type options; fallback := fallback_type;
             promise := ReadOption options "promise"%string false |}
     else
       Throw (RuntimeTypeError
                "Only one of `copy`, `externalCopy`, or `reference` may be set"%string))
  ∧ ∀ b, TransferableOptions_new (<["promise"%string := b]> options) fallback_type
         = (if decide (flags_set options ≤ 1) then
              Ok {| type := requested_type options; fallback := fallback_type; promise := b |}
            else
              Throw (RuntimeTypeError
                       "Only one of `copy`, `externalCopy`, or `reference` may be set"%string)).
Proof.
  split.
  - unfold TransferableOptions_new, ParseOptions, flags_set, requested_type.
    destruct (ReadOption options "copy"%string false),
      (ReadOption options "externalCopy"%string false),
      (ReadOption options "reference"%string false); simpl; done.
  - intros b.
    unfold TransferableOptions_new, ParseOptions, flags_set, requested_type, ReadOption.
    rewrite !lookup_insert_ne by done. rewrite lookup_insert_eq. simpl.
    destruct (default false (options !! "copy"%string)),
      (default false (options !! "externalCopy"%string)),
      (default false (options !! "reference"%string)); simpl; done.
Qed.

(** C10.  With the promise option the strict transfer-out does not throw.
    For every value, kind and fallback it returns a [TransferablePromise] on
    a new state.  If the transfer of the value it wraps (the value itself, or
    the result of a promise that is already fulfilled) fails with an
    exception, the new state is rejected with the copy of that exception.  If
    the originating promise is fulfilled later with a value whose transfer
    fails, the continuation returns normally and the state is rejected with
    the copy of the exception, for the waiters queued by then as for every
    destination that materialises the transferable afterwards. *)
Theorem promise_transfer_never_throws `{Collaborators} (fuel : nat) (v : Value)
    (options : TransferableOptions) (w : World) :
  promise options = true →
  let l := length (heap w) in
  let that := MakeHolder l options in
  ∃ w',
    TransferOut (S (S fuel)) v options w = Some (w', Ok (TransferablePromise l))
    ∧ (∀ x e u u',
         wrapped_value v = Some x →
         TransferOut (S fuel) x (transfer_options that) u = Some (u', Throw e) →
         heap w' !! l = Some (rejected_with e))
    ∧ (∀ x e u u' w1 st,
         TransferOut (S fuel) x (transfer_options that) u = Some (u', Throw e) →
         heap w1 !! l = Some st →
         resolved st = false →
         ∃ w2,
           Resolved (TransferOut (S fuel)) that x w1 = Some (w2, Ok tt)
           ∧ heap w2 !! l = Some (rejected_with e)
           ∧ scheduled w2
             = scheduled w1 ++ tasks_for (value (rejected_with e), true) (waiting st)
           ∧ ∀ isolate, ∃ w3 resolver,
               TransferIn l isolate w2 = Some (w3, Ok resolver)
               ∧ settled w3 = settled w2 ++
                   [{| settle_resolver := resolver; settle_reject := true;
                       settle_value := value (rejected_with e) |}]).
Proof.
  intros Hp l that.
  assert (∀ x e u u',
            TransferOut (S fuel) x (transfer_options that) u = Some (u', Throw e) →
            settlement false (strict (dispatch x (transfer_options that)))
            = (Some (AsTransferable (external_error e)), true)) as Hfail.
  { intros x e u u' Hx. rewrite TransferOut_no_promise in Hx by done.
    injection Hx as _ Hs. change (transfer_options that) with (set_promise false options).
    by rewrite Hs. }
  assert (heap (set_heap (λ h, h ++ [TransferablePromiseState_new]) w) !! l
          = Some TransferablePromiseState_new) as Hl0.
  { simpl. by rewrite lookup_app_r, Nat.sub_diag. }
  exists (bridge_world v options w). split_and!.
  - unfold TransferOut. apply TransferOut_via_pure_gen.
    by apply OptionalTransferOut_promise.
  - intros x e u u' Hv Hx. specialize (Hfail _ _ _ _ Hx).
    assert (bridge_world v options w
            = settle_world l (settlement false (strict (dispatch x (transfer_options that))))
                [] (set_heap (λ h, h ++ [TransferablePromiseState_new]) w)) as ->.
    { destruct v as [| | | | | | | |id [| |] result]; by simplify_eq/=. }
    change (strict _) with (strict (dispatch x (transfer_options that))).
    rewrite Hfail. exact (heap_settle_world _ _ _ _ _ Hl0).
  - intros x e u u' w1 st Hx Hl1 Hr. specialize (Hfail _ _ _ _ Hx).
    eexists. split; [by apply (Resolved_unresolved fuel that x w1 st eq_refl)|].
    change (state that) with l. rewrite Hfail.
    pose proof (heap_settle_world l (Some (AsTransferable (external_error e)), true)
                  (waiting st) _ _ Hl1) as Hl2.
    split_and!; try done.
    intros isolate. eexists _, _.
    rewrite (TransferIn_resolved _ isolate _ _ Hl2 eq_refl). done.
Qed.

Lemma promise_transfer_never_throws_witness :
  let options := {| type := TypeNone; fallback := TypeNone; promise := true |} in
  let v := PlainObject 7 in
  promise options = true
  ∧ wrapped_value v = Some v
  ∧ (let that := MakeHolder 0 options in
     TransferOut (H := spec_codec) 1 v (transfer_options that) empty_world
     = Some (empty_world,
             Throw (RuntimeTypeError "A non-transferable value was passed"%string)))
  ∧ ∃ w',
      TransferOut (H := spec_codec) 2 v options empty_world
      = Some (w', Ok (TransferablePromise 0))
      ∧ heap w' !! 0
        = Some (rejected_with (RuntimeTypeError "A non-transferable value was passed"%string)).
Proof.
  cbv zeta. split; [reflexivity|]. split; [reflexivity|]. split; [reflexivity|].
  destruct (promise_transfer_never_throws (H := spec_codec) 0 (PlainObject 7)
              {| type := TypeNone; fallback := TypeNone; promise := true |} empty_world
              eq_refl) as (w' & Hout & Hnow & _).
  exists w'. split; [exact Hout|].
  apply (Hnow (PlainObject 7) _ empty_world empty_world); reflexivity.
Defined.

(** ** Further properties of the option parser *)

(** X1.  Keys that the parser does not read are ignored: adding any other
    key to an options bag, with any value, changes neither whether parsing
    succeeds nor its result, whatever the members of the object were. *)
Theorem parse_ignores_other_keys (this : TransferableOptions)
    (options : gmap string bool) (key : string) (b : bool) :
  key ∉ option_keys →
  ParseOptions this (<[key := b]> options) = ParseOptions this options.
Proof.
  intros Hk.
  assert (∀ k, k ∈ option_keys →
               ReadOption (<[key := b]> options) k false = ReadOption options k false) as Hread.
  { intros k Hin. unfold ReadOption. rewrite lookup_insert_ne; [done|].
    intros ->. by apply Hk. }
  unfold ParseOptions.
  rewrite (Hread "copy"%string), (Hread "externalCopy"%string),
    (Hread "reference"%string), (Hread "promise"%string);
    [done|unfold option_keys; repeat constructor..].
Qed.

Lemma parse_ignores_other_keys_witness :
  let this := {| type := TypeNone; fallback := TypeReference; promise := false |} in
  let options : gmap string bool := {[ "externalCopy"%string := true ]} in
  let key := "timeout"%string in
  (key ∉ option_keys)
  ∧ ParseOptions this (<[key := true]> options) = ParseOptions this options.
Proof.
  cbv zeta.
  assert (("timeout"%string) ∉ option_keys) as Hk.
  { unfold option_keys. intros Hin.
    repeat (apply elem_of_cons in Hin as [Hin|Hin]; [discriminate Hin|]).
    by apply elem_of_nil in Hin. }
  split; [exact Hk|]. apply parse_ignores_other_keys. exact Hk.
Defined.

(** X2.  An options object in which none of the four flags is true, be they
    absent or false, is the same as no options object at all: the
    constructor does not throw and yields the unset kind, the caller's
    fallback and no promise option. *)
Theorem no_flag_is_no_options (options : gmap string bool) (fallback_type : OptionsType) :
  (∀ key, key ∈ option_keys → ReadOption options key false = false) →
  TransferableOptions_new_maybe (Some options) fallback_type
  = TransferableOptions_new_maybe None fallback_type
  ∧ TransferableOptions_new_maybe None fallback_type
    = Ok {| type := TypeNone; fallback := fallback_type; promise := false |}.
Proof.
  intros Hoff. split; [|done].
  unfold TransferableOptions_new_maybe, ParseOptions.
  rewrite (Hoff "copy"%string), (Hoff "externalCopy"%string),
    (Hoff "reference"%string), (Hoff "promise"%string);
    [done|unfold option_keys; repeat constructor..].
Qed.

Lemma no_flag_is_no_options_witness :
  let options : gmap string bool :=
    {[ "copy"%string := false; "timeout"%string := true ]} in
  (∀ key, key ∈ option_keys → ReadOption options key false = false)
  ∧ TransferableOptions_new_maybe (Some options) TypeCopy
    = TransferableOptions_new_maybe None TypeCopy
  ∧ TransferableOptions_new_maybe None TypeCopy
    = Ok {| type := TypeNone; fallback := TypeCopy; promise := false |}.
Proof.
  cbv zeta.
  assert (∀ key, key ∈ option_keys →
            ReadOption ({[ "copy"%string := false; "timeout"%string := true ]} : gmap string bool)
              key false = false) as Hoff.
  { intros key Hk. unfold option_keys in Hk.
    repeat (apply elem_of_cons in Hk as [->|Hk]; [reflexivity|]).
    by apply elem_of_nil in Hk. }
  split; [exact Hoff|]. apply no_flag_is_no_options. exact Hoff.
Defined.

(** ** Further properties of the dispatch *)

Section DispatchMore.

Context `{Collaborators}.

(** X3.  An explicit kind decides alone.  Without the promise option and
    with the kind Reference, the strict transfer-out of every value returns a
    reference to that value; with the kind Copy or ExternalCopy it returns
    the copy made by [Copy], as it is or wrapped in an
    [ExternalCopyTransferable], or throws what [Copy] throws.  The native
    handle of the value, the fast path and the fallback have no part in the
    result, the store is left as it is, and "A non-transferable value was
    passed" is never thrown. *)
Theorem explicit_kind_decides (fuel : nat) (v : Value) (options : TransferableOptions)
    (w : World) :
  promise options = false →
  type options ≠ TypeNone →
  TransferOut (S fuel) v options w
  = Some (w, match type options with
             | TypeReference => Ok (ReferenceHandleTransferable v)
             | TypeExternalCopy =>
                 match Copy v with
                 | Ok copy => Ok (ExternalCopyTransferable copy)
                 | Throw e => Throw e
                 end
             | _ =>
                 match Copy v with
                 | Ok copy => Ok (AsTransferable copy)
                 | Throw e => Throw e
                 end
             end).
Proof.
  intros Hp Ht. rewrite TransferOut_no_promise by done.
  unfold dispatch, TransferWithType.
  destruct (type options); try done; simpl; by destruct (Copy v).
Qed.

(** X4.  The fallback stands in for the kind.  For a value that wraps no
    native handle and that the fast path does not take, a transfer with the
    kind unset and the fallback [kind] has the result of the transfer with
    the explicit kind [kind], in the optional and in the strict form. *)
Theorem fallback_acts_as_kind (fuel : nat) (v : Value) (kind : OptionsType) (w : World) :
  native_capability v = None →
  CopyIfPrimitive v = None →
  OptionalTransferOut (S fuel) v {| type := TypeNone; fallback := kind; promise := false |} w
  = OptionalTransferOut (S fuel) v {| type := kind; fallback := TypeNone; promise := false |} w
  ∧ TransferOut (S fuel) v {| type := TypeNone; fallback := kind; promise := false |} w
    = TransferOut (S fuel) v {| type := kind; fallback := TypeNone; promise := false |} w.
Proof.
  intros Hn Hc.
  assert (dispatch v {| type := TypeNone; fallback := kind; promise := false |}
          = dispatch v {| type := kind; fallback := TypeNone; promise := false |}) as Hd.
  { unfold dispatch. simpl. rewrite Hn, Hc. by destruct kind; simpl; rewrite ?Hn, ?Hc. }
  split.
  - by rewrite !OptionalTransferOut_no_promise, Hd.
  - by rewrite !TransferOut_no_promise, Hd.
Qed.

(** X5.  Where a synchronous exception of the strict transfer-out comes
    from.  If the strict transfer-out throws, the promise option is off, and
    the exception is one of three: the one the native handle of the value
    threw, with the kind unset; the one [Copy] threw; or "A non-transferable
    value was passed", when the optional form yields nothing. *)
Theorem strict_transfer_exception_origin (fuel : nat) (v : Value)
    (options : TransferableOptions) (w w' : World) (e : Exception) :
  TransferOut (S (S fuel)) v options w = Some (w', Throw e) →
  promise options = false
  ∧ ((type options = TypeNone ∧
      ∃ ptr, native_capability v = Some ptr ∧ TransferableHandle_TransferOut ptr = Throw e)
     ∨ Copy v = Throw e
     ∨ (e = RuntimeTypeError "A non-transferable value was passed"%string ∧
        OptionalTransferOut (S (S fuel)) v options w = Some (w', Ok None))).
Proof.
  intros Hthrow. destruct (promise options) eqn:Hp.
  { unfold TransferOut in Hthrow.
    rewrite (TransferOut_via_pure_gen _ _ _ _ _ _ (OptionalTransferOut_promise _ _ _ _ Hp))
      in Hthrow. done. }
  split; [done|].
  rewrite TransferOut_no_promise in Hthrow by done.
  rewrite OptionalTransferOut_no_promise by done.
  injection Hthrow as <- Hs. revert Hs. unfold dispatch, TransferWithType.
  destruct (type options) eqn:Ht; simpl.
  - destruct (native_capability v) as [ptr|] eqn:Hn.
    + destruct (TransferableHandle_TransferOut ptr) as [[t|]|e'] eqn:Hh; simpl;
        intros Hs; simplify_eq; eauto 10.
    + destruct (CopyIfPrimitive v); simpl; [done|].
      destruct (fallback options); simpl; try destruct (Copy v); simpl;
        intros Hs; simplify_eq; eauto 10.
  - destruct (Copy v); simpl; intros Hs; simplify_eq; eauto.
  - destruct (Copy v); simpl; intros Hs; simplify_eq; eauto.
  - done.
Qed.

End DispatchMore.

Lemma explicit_kind_decides_witness :
  let options := {| type := TypeReference; fallback := TypeCopy; promise := false |} in
  promise options = false
  ∧ type options ≠ TypeNone
  ∧ TransferOut (H := spec_codec) 1 (WrappedHandle 0) options empty_world
    = Some (empty_world, Ok (ReferenceHandleTransferable (WrappedHandle 0))).
Proof.
  cbv zeta. split; [reflexivity|]. split; [discriminate|].
  apply (explicit_kind_decides (H := spec_codec) 0 (WrappedHandle 0)
           {| type := TypeReference; fallback := TypeCopy; promise := false |} empty_world);
    [reflexivity|discriminate].
Defined.

Lemma fallback_acts_as_kind_witness :
  native_capability (PlainObject 7) = None
  ∧ spec_CopyIfPrimitive (PlainObject 7) = None
  ∧ OptionalTransferOut (H := spec_codec) 1 (PlainObject 7)
      {| type := TypeNone; fallback := TypeExternalCopy; promise := false |} empty_world
    = OptionalTransferOut (H := spec_codec) 1 (PlainObject 7)
        {| type := TypeExternalCopy; fallback := TypeNone; promise := false |} empty_world
  ∧ TransferOut (H := spec_codec) 1 (PlainObject 7)
      {| type := TypeNone; fallback := TypeExternalCopy; promise := false |} empty_world
    = TransferOut (H := spec_codec) 1 (PlainObject 7)
        {| type := TypeExternalCopy; fallback := TypeNone; promise := false |} empty_world.
Proof.
  split; [reflexivity|]. split; [reflexivity|].
  apply (fallback_acts_as_kind (H := spec_codec) 0 (PlainObject 7)); reflexivity.
Defined.

Lemma strict_transfer_exception_origin_witness :
  let options := {| type := TypeNone; fallback := TypeCopy; promise := false |} in
  let e := RuntimeTypeError "The handle has been released"%string in
  TransferOut (H := spec_codec) 2 (WrappedHandle 0) options empty_world
  = Some (empty_world, Throw e)
  ∧ promise options = false
  ∧ ((type options = TypeNone ∧
      ∃ ptr, native_capability (WrappedHandle 0) = Some ptr ∧ spec_TransferOut ptr = Throw e)
     ∨ spec_Copy (WrappedHandle 0) = Throw e
     ∨ (e = RuntimeTypeError "A non-transferable value was passed"%string ∧
        OptionalTransferOut (H := spec_codec) 2 (WrappedHandle 0) options empty_world
        = Some (empty_world, Ok None))).
Proof.
  cbv zeta. split; [reflexivity|].
  apply (strict_transfer_exception_origin (H := spec_codec) 0 (WrappedHandle 0)
           {| type := TypeNone; fallback := TypeCopy; promise := false |}
           empty_world empty_world). reflexivity.
Defined.

(** ** Further properties of the bridge *)

Lemma is_Some_settlement d r : is_Some (settlement d r).1.
Proof. by destruct r. Qed.

(** Running the tasks of a settlement settles the resolvers of the queue,
    in order, and touches nothing else. *)
Lemma run_tasks_for s q w :
  run_tasks (tasks_for s q) w
  = Some ({| heap := heap w; reactions := reactions w; scheduled := scheduled w;
             settled := settled w ++ records_for s q; writes := writes w;
             next_resolver := next_resolver w |}, Ok tt).
Proof.
  revert w. induction q as [|r q IH]; intros w; simpl.
  - by rewrite app_nil_r, World_eta.
  - unfold run_tasks in *. simpl. unfold mbind, M_bind, Run. simpl.
    destruct (s.2) eqn:Hs; simpl; rewrite IH; simpl; by rewrite <- app_assoc, ?Hs.
Qed.

Section BridgeMore.

Context `{Collaborators}.

(** A trigger on an unsettled state stores a value. *)
Lemma fire_trigger_stores_value fuel that e w st :
  promise (transfer_options that) = false →
  is_trigger e = true →
  heap w !! state that = Some st → resolved st = false →
  ∃ s, is_Some s.1 ∧
       fire (S fuel) that e w = Some (settle_world (state that) s (waiting st) w, Ok tt).
Proof.
  intros Hp He Hl Hr. destruct e as [v|v| |isolate]; try done; simpl.
  - eexists. split; [|by apply Resolved_unresolved]. apply is_Some_settlement.
  - eexists. split; [|by apply Rejected_unresolved]. done.
  - eexists. split; [|by apply destroy_unresolved]. done.
Qed.

(** Every event rewrites at most the state of its own holder, and returns
    normally. *)
Lemma fire_heap_shape fuel that e w w' r :
  promise (transfer_options that) = false →
  fire (S fuel) that e w = Some (w', r) →
  r = Ok tt ∧ ∃ st st', heap w !! state that = Some st ∧
                        heap w' = <[state that := st']> (heap w).
Proof.
  intros Hp Hfire. destruct (heap w !! state that) as [st|] eqn:Hl.
  - destruct (is_trigger e) eqn:He; destruct (resolved st) eqn:Hr.
    + assert (fire (S fuel) that e w
              = Some ({| heap := <[state that := {| value := value st; waiting := [];
                                                    did_throw := did_throw st;
                                                    resolved := true |}]> (heap w);
                         reactions := reactions w;
                         scheduled := scheduled w ++
                           tasks_for (value st, match e with EvResolved _ => false | _ => true end)
                             (waiting st);
                         settled := settled w; writes := writes w;
                         next_resolver := next_resolver w |}, Ok tt)) as Hgo.
      { destruct e; try done; simpl; by apply Save_resolved. }
      rewrite Hgo in Hfire. injection Hfire as <- <-. eauto.
    + destruct (fire_trigger_unresolved fuel that Hp e w st He Hl Hr) as [s Hgo].
      rewrite Hgo in Hfire. injection Hfire as <- <-. eauto.
    + destruct e as [| | |isolate]; try done. simpl in Hfire.
      rewrite (bind_Ok _ _ _ _ _ (TransferIn_resolved _ isolate _ _ Hl Hr)) in Hfire.
      injection Hfire as <- <-. split; [done|]. exists st, st. split; [done|].
      simpl. by rewrite list_insert_id.
    + destruct e as [| | |isolate]; try done. simpl in Hfire.
      rewrite (bind_Ok _ _ _ _ _ (TransferIn_unresolved _ isolate _ _ Hl Hr)) in Hfire.
      injection Hfire as <- <-. eauto.
  - exfalso. destruct e as [v|v| |isolate]; simpl in Hfire;
      unfold Resolved, Rejected, TransferablePromiseHolder_destroy, Save, TransferIn,
        Resolver_New, lock_state, mbind, M_bind in Hfire; simpl in Hfire;
      by rewrite Hl in Hfire.
Qed.

(** X6.  A transfer-out with the promise option leaves what exists alone.
    Every bridge state of the store is found unchanged at its place, exactly
    one state is added, and no task is scheduled, no resolver settled or
    created; the settlement fields written are those of the new state; the
    continuations grow by the pair for the new holder if the promise is
    pending and not at all otherwise. *)
Theorem promise_transfer_frame (fuel : nat) (v : Value) (options : TransferableOptions)
    (w : World) :
  promise options = true →
  ∃ w' added,
    OptionalTransferOut (S (S fuel)) v options w
    = Some (w', Ok (Some (TransferablePromise (length (heap w)))))
    ∧ (∀ l st, heap w !! l = Some st → heap w' !! l = Some st)
    ∧ length (heap w') = S (length (heap w))
    ∧ scheduled w' = scheduled w
    ∧ settled w' = settled w
    ∧ next_resolver w' = next_resolver w
    ∧ writes w' = writes w ++ added
    ∧ Forall (λ x, write_state x = length (heap w)) added
    ∧ reactions w'
      = reactions w ++
        match v with
        | Promise id kPending _ => [(id, MakeHolder (length (heap w)) options)]
        | _ => []
        end.
Proof.
  intros Hp.
  exists (bridge_world v options w),
    (match v with
     | Promise _ kPending _ => []
     | Promise _ kFulfilled result =>
         settlement_writes (length (heap w))
           (settlement false
              (strict (dispatch result (transfer_options (MakeHolder (length (heap w)) options)))))
     | Promise _ kRejected result =>
         settlement_writes (length (heap w))
           (Some (AsTransferable (CopyIfPrimitiveOrError result)), true)
     | _ =>
         settlement_writes (length (heap w))
           (settlement false
              (strict (dispatch v (transfer_options (MakeHolder (length (heap w)) options)))))
     end).
  split; [by apply OptionalTransferOut_promise|].
  assert (∀ x l st, heap w !! l = Some st →
            <[length (heap w) := x]> (heap w ++ [TransferablePromiseState_new]) !! l = Some st)
    as Hold.
  { intros x l st Hl. pose proof (lookup_lt_Some _ _ _ Hl).
    rewrite list_lookup_insert_ne by lia. by apply lookup_app_l_Some. }
  destruct v as [| | | | | | | |id [| |] result]; simpl;
    rewrite ?length_insert, ?length_app, ?app_nil_r; simpl;
    (split_and!; [try (intros l st Hl; by first [apply Hold | apply lookup_app_l_Some])
                 | lia | done.. | try by repeat constructor | done]).
Qed.

(** X7.  It makes no difference to the bridge when the promise settles.  A
    pending promise transferred with the promise option and settled
    afterwards leaves the same bridge states, the same assignments, the same
    tasks and the same settled resolvers as a promise that had already
    settled that way when it was transferred; only the pair of continuations
    remains from the pending one. *)
Theorem late_settlement_same_bridge (fuel id : nat) (pending_result v : Value)
    (rejected : bool) (options : TransferableOptions) (w : World) :
  promise options = true →
  let l := length (heap w) in
  let that := MakeHolder l options in
  ∃ w1 w2 w3,
    OptionalTransferOut (S (S fuel)) (Promise id kPending pending_result) options w
    = Some (w1, Ok (Some (TransferablePromise l)))
    ∧ settle_promise (S fuel) that rejected v w1 = Some (w2, Ok tt)
    ∧ OptionalTransferOut (S (S fuel)) (Promise id (settled_as rejected) v) options w
      = Some (w3, Ok (Some (TransferablePromise l)))
    ∧ heap w2 = heap w3
    ∧ writes w2 = writes w3
    ∧ scheduled w2 = scheduled w3
    ∧ settled w2 = settled w3
    ∧ next_resolver w2 = next_resolver w3
    ∧ reactions w2 = reactions w3 ++ [(id, that)].
Proof.
  intros Hp l that.
  set (w0 := set_heap (λ h, h ++ [TransferablePromiseState_new]) w).
  assert (heap (add_reaction (id, that) w0) !! state that = Some TransferablePromiseState_new)
    as Hl0.
  { simpl. by rewrite lookup_app_r, Nat.sub_diag. }
  destruct rejected; unfold settled_as, settle_promise.
  - eexists _, _, _. split; [by apply OptionalTransferOut_promise|].
    split; [exact (Rejected_unresolved that v _ _ Hl0 eq_refl)|].
    split; [by apply OptionalTransferOut_promise|]. done.
  - eexists _, _, _. split; [by apply OptionalTransferOut_promise|].
    split; [exact (Resolved_unresolved fuel that v _ _ eq_refl Hl0 eq_refl)|].
    split; [by apply OptionalTransferOut_promise|]. done.
Qed.

(** X8.  The shape of a bridge state is kept.  From a state that is
    unsettled with no value and no rejection flag, or settled with an empty
    queue and a value, every history of events runs to its end without an
    exception and ends in a state of that shape; a settled state stays
    settled; and every task scheduled and every resolver settled on the way
    carries a value, so that no [value->TransferIn()] is made on a null
    pointer. *)
Theorem state_shape_is_kept (fuel : nat) (that : TransferablePromiseHolder)
    (evs : list Event) (w : World) (st : TransferablePromiseStateStruct) :
  promise (transfer_options that) = false →
  heap w !! state that = Some st →
  state_ok st →
  ∃ w' st' tasks outcomes,
    run (S fuel) that evs w = Some (w', Ok tt)
    ∧ heap w' !! state that = Some st'
    ∧ state_ok st'
    ∧ (resolved st = true → resolved st' = true)
    ∧ scheduled w' = scheduled w ++ tasks
    ∧ settled w' = settled w ++ outcomes
    ∧ Forall (λ t : nat * ResolveTask, is_Some (task_value t.2)) tasks
    ∧ Forall (λ s, is_Some (settle_value s)) outcomes.
Proof.
  intros Hp. revert w st. induction evs as [|e evs IH]; intros w st Hl Hok.
  - exists w, st, [], []. simpl. by rewrite !app_nil_r.
  - assert (∃ w1 st1 tasks1 outcomes1,
              fire (S fuel) that e w = Some (w1, Ok tt)
              ∧ heap w1 !! state that = Some st1 ∧ state_ok st1
              ∧ (resolved st = true → resolved st1 = true)
              ∧ scheduled w1 = scheduled w ++ tasks1
              ∧ settled w1 = settled w ++ outcomes1
              ∧ Forall (λ t : nat * ResolveTask, is_Some (task_value t.2)) tasks1
              ∧ Forall (λ s, is_Some (settle_value s)) outcomes1) as Hstep.
    { unfold state_ok in Hok.
      destruct (is_trigger e) eqn:He; destruct (resolved st) eqn:Hr.
      - destruct Hok as [Hq Hv]. exists w, st, [], [].
        rewrite (fire_trigger_settled fuel that e w st He Hl Hr Hq), !app_nil_r.
        unfold state_ok. rewrite Hr. by split_and!.
      - destruct (fire_trigger_stores_value fuel that e w st Hp He Hl Hr) as (s & Hs & Hgo).
        exists (settle_world (state that) s (waiting st) w), (settled_state s),
          (tasks_for s (waiting st)), [].
        rewrite Hgo. simpl. rewrite app_nil_r. split_and!; try done.
        + apply list_lookup_insert_eq. by eapply lookup_lt_Some.
        + unfold tasks_for. apply Forall_map, Forall_forall. by intros.
      - destruct e as [| | |isolate]; try done. destruct Hok as [Hq Hv].
        eexists _, st, [], [_]. simpl.
        rewrite (bind_Ok _ _ _ _ _ (TransferIn_resolved _ isolate _ _ Hl Hr)).
        simpl. rewrite app_nil_r. unfold state_ok. rewrite Hr.
        split_and!; try done. by constructor.
      - destruct e as [| | |isolate]; try done. destruct Hok as [Hv Hd].
        eexists _, _, [], []. simpl.
        rewrite (bind_Ok _ _ _ _ _ (TransferIn_unresolved _ isolate _ _ Hl Hr)).
        simpl. rewrite !app_nil_r. split_and!; try done.
        + apply list_lookup_insert_eq. by eapply lookup_lt_Some.
        + by unfold state_ok. }
    destruct Hstep as (w1 & st1 & tasks1 & outcomes1 & Hfire & Hl1 & Hok1 & Hmono1
                       & Hsch1 & Hset1 & Ht1 & Ho1).
    destruct (IH w1 st1 Hl1 Hok1)
      as (w' & st' & tasks & outcomes & Hrun & Hl' & Hok' & Hmono & Hsch & Hset & Ht & Ho).
    exists w', st', (tasks1 ++ tasks), (outcomes1 ++ outcomes).
    split_and!; try done.
    + unfold run in *. simpl. by rewrite (bind_Ok _ _ _ _ _ Hfire).
    + auto.
    + by rewrite Hsch, Hsch1, app_assoc.
    + by rewrite Hset, Hset1, app_assoc.
    + by apply Forall_app.
    + by apply Forall_app.
Qed.

End BridgeMore.

Lemma promise_transfer_frame_witness :
  let options := {| type := TypeCopy; fallback := TypeNone; promise := true |} in
  let v := Promise 3 kPending Undefined in
  let w := fresh_world in
  promise options = true
  ∧ ∃ w' added,
      OptionalTransferOut (H := spec_codec) 2 v options w
      = Some (w', Ok (Some (TransferablePromise (length (heap w)))))
      ∧ (∀ l st, heap w !! l = Some st → heap w' !! l = Some st)
      ∧ length (heap w') = S (length (heap w))
      ∧ scheduled w' = scheduled w
      ∧ settled w' = settled w
      ∧ next_resolver w' = next_resolver w
      ∧ writes w' = writes w ++ added
      ∧ Forall (λ x, write_state x = length (heap w)) added
      ∧ reactions w' = reactions w ++ [(3, MakeHolder (length (heap w)) options)].
Proof.
  cbv zeta. split; [reflexivity|].
  apply (promise_transfer_frame (H := spec_codec) 0 (Promise 3 kPending Undefined)).
  reflexivity.
Defined.

Lemma late_settlement_same_bridge_witness :
  let options := {| type := TypeReference; fallback := TypeNone; promise := true |} in
  promise options = true
  ∧ let l := length (heap empty_world) in
    let that := MakeHolder l options in
    ∃ w1 w2 w3,
      OptionalTransferOut (H := spec_codec) 2 (Promise 3 kPending Undefined) options empty_world
      = Some (w1, Ok (Some (TransferablePromise l)))
      ∧ settle_promise (H := spec_codec) 1 that false (PlainObject 7) w1 = Some (w2, Ok tt)
      ∧ OptionalTransferOut (H := spec_codec) 2 (Promise 3 (settled_as false) (PlainObject 7))
          options empty_world
        = Some (w3, Ok (Some (TransferablePromise l)))
      ∧ heap w2 = heap w3
      ∧ writes w2 = writes w3
      ∧ scheduled w2 = scheduled w3
      ∧ settled w2 = settled w3
      ∧ next_resolver w2 = next_resolver w3
      ∧ reactions w2 = reactions w3 ++ [(3, that)].
Proof.
  cbv zeta. split; [reflexivity|].
  apply (late_settlement_same_bridge (H := spec_codec) 0 3 Undefined (PlainObject 7) false).
  reflexivity.
Defined.

Lemma state_shape_is_kept_witness :
  let that := MakeHolder 0 {| type := TypeNone; fallback := TypeNone; promise := true |} in
  let evs := [EvTransferIn 1; EvRejected (PlainObject 7); EvTransferIn 2; EvDestroy] in
  promise (transfer_options that) = false
  ∧ heap fresh_world !! state that = Some TransferablePromiseState_new
  ∧ state_ok TransferablePromiseState_new
  ∧ ∃ w' st' tasks outcomes,
      run (H := spec_codec) 1 that evs fresh_world = Some (w', Ok tt)
      ∧ heap w' !! state that = Some st'
      ∧ state_ok st'
      ∧ (resolved TransferablePromiseState_new = true → resolved st' = true)
      ∧ scheduled w' = scheduled fresh_world ++ tasks
      ∧ settled w' = settled fresh_world ++ outcomes
      ∧ Forall (λ t : nat * ResolveTask, is_Some (task_value t.2)) tasks
      ∧ Forall (λ s, is_Some (settle_value s)) outcomes.
Proof.
  cbv zeta. split; [reflexivity|]. split; [reflexivity|].
  split; [split; reflexivity|].
  apply (state_shape_is_kept (H := spec_codec) 0); [reflexivity|reflexivity|].
  split; reflexivity.
Defined.

(** X9.  A destination that materialises the transferable is either queued
    or settled, never both and never neither.  [TransferIn] returns a
    resolver of the calling isolate that did not exist before; on an
    unsettled state the resolver joins the end of the queue and nothing is
    settled; on a settled state the resolver is settled with the stored value
    and flag and the queue is left as it is.  In both cases the value, the
    flag and the settled mark of the state are kept, nothing is scheduled and
    no settlement field is written. *)
Theorem materialisation_queues_or_settles (l isolate : nat) (w : World)
    (st : TransferablePromiseStateStruct) :
  heap w !! l = Some st →
  let resolver := {| resolver_isolate := isolate; resolver_id := next_resolver w |} in
  ∃ w' st',
    TransferIn l isolate w = Some (w', Ok resolver)
    ∧ next_resolver w' = S (next_resolver w)
    ∧ heap w' = <[l := st']> (heap w)
    ∧ value st' = value st ∧ did_throw st' = did_throw st ∧ resolved st' = resolved st
    ∧ scheduled w' = scheduled w
    ∧ writes w' = writes w
    ∧ reactions w' = reactions w
    ∧ (if resolved st
       then waiting st' = waiting st
            ∧ settled w' = settled w ++
                [{| settle_resolver := resolver; settle_reject := did_throw st;
                    settle_value := value st |}]
       else waiting st' = waiting st ++ [resolver]
            ∧ settled w' = settled w).
Proof.
  intros Hl resolver. destruct (resolved st) eqn:Hr.
  - eexists _, st. rewrite (TransferIn_resolved _ isolate _ _ Hl Hr). simpl.
    rewrite Hr. split_and!; try done. by rewrite list_insert_id.
  - eexists _, _. rewrite (TransferIn_unresolved _ isolate _ _ Hl Hr). simpl.
    by split_and!.
Qed.

Lemma materialisation_queues_or_settles_witness :
  heap fresh_world !! 0 = Some TransferablePromiseState_new
  ∧ let st := TransferablePromiseState_new in
    let resolver := {| resolver_isolate := 5; resolver_id := next_resolver fresh_world |} in
    ∃ w' st',
      TransferIn 0 5 fresh_world = Some (w', Ok resolver)
      ∧ next_resolver w' = S (next_resolver fresh_world)
      ∧ heap w' = <[0 := st']> (heap fresh_world)
      ∧ value st' = value st ∧ did_throw st' = did_throw st ∧ resolved st' = resolved st
      ∧ scheduled w' = scheduled fresh_world
      ∧ writes w' = writes fresh_world
      ∧ reactions w' = reactions fresh_world
      ∧ waiting st' = waiting st ++ [resolver]
      ∧ settled w' = settled fresh_world.
Proof.
  cbv zeta. split; [reflexivity|].
  apply (materialisation_queues_or_settles 0 5 fresh_world TransferablePromiseState_new).
  reflexivity.
Defined.

Section ObserverFacts.

Context `{Collaborators}.

(** X10.  An observer sees the same outcome whether it comes before or
    after the settlement.  On an unsettled bridge with an empty queue, a
    destination that materialises the transferable, waits for the trigger and
    then runs the task scheduled for it is settled exactly as one that
    materialises the transferable after the trigger: the same resolver, the
    same rejection flag, the same value, and the same bridge state and
    assignments behind them. *)
Theorem early_and_late_observer_agree (fuel : nat) (that : TransferablePromiseHolder)
    (isolate : nat) (e : Event) (w : World) (st : TransferablePromiseStateStruct) :
  promise (transfer_options that) = false →
  heap w !! state that = Some st →
  resolved st = false →
  waiting st = [] →
  is_trigger e = true →
  ∃ resolver task early early' late,
    (r ← TransferIn (state that) isolate; fire (S fuel) that e;; mret r) w
    = Some (early, Ok resolver)
    ∧ scheduled early = scheduled w ++ [task]
    ∧ task.1 = isolate
    ∧ Run task.2 early = Some (early', Ok tt)
    ∧ (fire (S fuel) that e;; TransferIn (state that) isolate) w = Some (late, Ok resolver)
    ∧ scheduled late = scheduled w
    ∧ settled early' = settled late
    ∧ heap early' = heap late
    ∧ writes early' = writes late.
Proof.
  intros Hp Hl Hr Hq He.
  pose proof (TransferIn_unresolved _ isolate _ _ Hl Hr) as Hin. cbv zeta in Hin.
  match type of Hin with _ = Some (?x, Ok ?r) => set (w1 := x) in *; set (r1 := r) in * end.
  assert (heap w1 !! state that
          = Some {| value := value st; waiting := waiting st ++ [r1];
                    did_throw := did_throw st; resolved := false |}) as Hl1.
  { simpl. apply list_lookup_insert_eq. by eapply lookup_lt_Some. }
  assert (∃ s, ∀ u st0, heap u !! state that = Some st0 → resolved st0 = false →
            fire (S fuel) that e u
            = Some (settle_world (state that) s (waiting st0) u, Ok tt)) as [s Hfire].
  { destruct e as [v|v| |i0]; try done; eexists; intros u st0 Hu Hu0; simpl.
    - by apply Resolved_unresolved.
    - by apply Rejected_unresolved.
    - by apply destroy_unresolved. }
  pose proof (heap_settle_world _ s (waiting st) _ _ Hl) as Hl2.
  exists r1, (isolate, {| task_resolver := r1; task_value := s.1; task_did_throw := s.2 |}).
  exists (settle_world (state that) s (waiting st ++ [r1]) w1),
    (add_settled {| settle_resolver := r1; settle_reject := s.2; settle_value := s.1 |}
       (settle_world (state that) s (waiting st ++ [r1]) w1)).
  eexists. split_and!.
  - rewrite (bind_Ok _ _ _ _ _ Hin). by rewrite (bind_Ok _ _ _ _ _ (Hfire _ _ Hl1 eq_refl)).
  - simpl. by rewrite Hq.
  - done.
  - unfold Run, Reject, Resolve, update. simpl. by destruct (s.2).
  - rewrite (bind_Ok _ _ _ _ _ (Hfire _ _ Hl Hr)).
    by rewrite (TransferIn_resolved _ isolate _ _ Hl2 eq_refl).
  - simpl. by rewrite Hq, app_nil_r.
  - done.
  - simpl. by rewrite list_insert_insert_eq.
  - done.
Qed.

(** A history of triggers on a settled bridge with an empty queue leaves
    the whole store as it is. *)
Lemma triggers_after_settlement fuel that es : ∀ w st,
  heap w !! state that = Some st → resolved st = true → waiting st = [] →
  Forall (λ x, is_trigger x = true) es →
  run (S fuel) that es w = Some (w, Ok tt).
Proof.
  induction es as [|x es IH]; intros w st Hl Hr Hq Hes; [reflexivity|].
  apply Forall_cons in Hes as [Hx Hes]. unfold run in *. simpl.
  rewrite (bind_Ok _ _ _ _ _ (fire_trigger_settled fuel that x w st Hx Hl Hr Hq)).
  by eapply IH.
Qed.

(** X11.  Of competing triggers only the first counts.  Whatever
    fulfilment and rejection continuations and destructions of the holder
    follow a trigger, in any number and order, the whole store, with the
    bridge state, the scheduled tasks and the assignments, is the one the
    first trigger alone leaves: a destruction after a settlement does not
    turn it into an abandonment, and a settlement after an abandonment does
    not undo it. *)
Theorem first_trigger_alone_counts (fuel : nat) (that : TransferablePromiseHolder)
    (e : Event) (es : list Event) (w : World) (st : TransferablePromiseStateStruct) :
  promise (transfer_options that) = false →
  heap w !! state that = Some st →
  state_ok st →
  is_trigger e = true →
  Forall (λ x, is_trigger x = true) es →
  run (S fuel) that (e :: es) w = fire (S fuel) that e w.
Proof.
  intros Hp Hl Hok He Hes. unfold state_ok in Hok. unfold run. simpl.
  destruct (resolved st) eqn:Hr.
  - destruct Hok as [Hq _].
    rewrite (fire_trigger_settled fuel that e w st He Hl Hr Hq).
    rewrite (bind_Ok _ _ _ _ _ (fire_trigger_settled fuel that e w st He Hl Hr Hq)).
    by eapply triggers_after_settlement.
  - destruct (fire_trigger_unresolved fuel that Hp e w st He Hl Hr) as [s Hfire].
    rewrite Hfire, (bind_Ok _ _ _ _ _ Hfire).
    eapply triggers_after_settlement;
      [exact (heap_settle_world _ _ _ _ _ Hl)|done..].
Qed.

(** X14.  Wrapping a value is transferring a fulfilled promise.  With the
    promise option, the transfer-out of a value that is not a promise leaves
    the same store and returns the same transferable as the transfer-out of
    a promise that is already fulfilled with that value. *)
Theorem wrapped_value_as_fulfilled_promise (fuel id : nat) (v : Value)
    (options : TransferableOptions) (w : World) :
  promise options = true →
  IsPromise v = false →
  OptionalTransferOut (S (S fuel)) v options w
  = OptionalTransferOut (S (S fuel)) (Promise id kFulfilled v) options w.
Proof.
  intros Hp Hv. rewrite !OptionalTransferOut_promise by done.
  by destruct v.
Qed.

(** X12.  Settling and running the tasks settles every waiter.  When a
    trigger fires on an unsettled bridge whose queue holds the resolvers [q],
    and the tasks it schedules are then run, each resolver of [q] is settled
    once, in the order of the queue, with the value and the rejection flag
    that the state now stores; running the tasks changes no bridge state and
    schedules nothing. *)
Theorem settling_then_running_settles_waiters (fuel : nat)
    (that : TransferablePromiseHolder) (e : Event) (w : World)
    (st : TransferablePromiseStateStruct) :
  promise (transfer_options that) = false →
  heap w !! state that = Some st →
  resolved st = false →
  is_trigger e = true →
  ∃ w1 w2 st1 tasks,
    fire (S fuel) that e w = Some (w1, Ok tt)
    ∧ scheduled w1 = scheduled w ++ tasks
    ∧ run_tasks tasks w1 = Some (w2, Ok tt)
    ∧ heap w1 !! state that = Some st1
    ∧ resolved st1 = true
    ∧ settled w2 = settled w ++ records_for (value st1, did_throw st1) (waiting st)
    ∧ heap w2 = heap w1
    ∧ scheduled w2 = scheduled w1.
Proof.
  intros Hp Hl Hr He.
  destruct (fire_trigger_unresolved fuel that Hp e w st He Hl Hr) as [s Hfire].
  eexists _, _, (settled_state s), (tasks_for s (waiting st)).
  rewrite Hfire, run_tasks_for. split_and!; try done.
  exact (heap_settle_world _ _ _ _ _ Hl).
Qed.

(** X13.  An event touches one bridge only.  Whatever an event on the
    bridge of a holder does, it returns normally, the store keeps its number
    of states, and every state other than the holder's own is found
    unchanged. *)
Theorem events_touch_one_bridge (fuel : nat) (that : TransferablePromiseHolder)
    (e : Event) (w w' : World) (r : Outcome unit) :
  promise (transfer_options that) = false →
  fire (S fuel) that e w = Some (w', r) →
  r = Ok tt
  ∧ length (heap w') = length (heap w)
  ∧ ∀ l, l ≠ state that → heap w' !! l = heap w !! l.
Proof.
  intros Hp Hfire.
  destruct (fire_heap_shape fuel that e w w' r Hp Hfire) as (-> & st & st' & Hl & ->).
  split; [done|]. split; [by rewrite length_insert|].
  intros l Hne. by rewrite list_lookup_insert_ne.
Qed.

End ObserverFacts.

Lemma early_and_late_observer_agree_witness :
  let that := MakeHolder 0 {| type := TypeNone; fallback := TypeNone; promise := true |} in
  let e := EvResolved (String "done") in
  promise (transfer_options that) = false
  ∧ heap fresh_world !! state that = Some TransferablePromiseState_new
  ∧ resolved TransferablePromiseState_new = false
  ∧ waiting TransferablePromiseState_new = []
  ∧ is_trigger e = true
  ∧ ∃ resolver task early early' late,
      (r ← TransferIn (state that) 5; fire (H := spec_codec) 1 that e;; mret r) fresh_world
      = Some (early, Ok resolver)
      ∧ scheduled early = scheduled fresh_world ++ [task]
      ∧ task.1 = 5
      ∧ Run task.2 early = Some (early', Ok tt)
      ∧ (fire (H := spec_codec) 1 that e;; TransferIn (state that) 5) fresh_world
        = Some (late, Ok resolver)
      ∧ scheduled late = scheduled fresh_world
      ∧ settled early' = settled late
      ∧ heap early' = heap late
      ∧ writes early' = writes late.
Proof.
  cbv zeta. do 5 (split; [reflexivity|]).
  apply (early_and_late_observer_agree (H := spec_codec) 0 _ 5 _ fresh_world
           TransferablePromiseState_new); reflexivity.
Defined.

Lemma first_trigger_alone_counts_witness :
  let that := MakeHolder 0 {| type := TypeNone; fallback := TypeNone; promise := true |} in
  let e := EvResolved (Number 7) in
  let es := [EvDestroy; EvRejected Null; EvDestroy] in
  promise (transfer_options that) = false
  ∧ heap fresh_world !! state that = Some TransferablePromiseState_new
  ∧ state_ok TransferablePromiseState_new
  ∧ is_trigger e = true
  ∧ Forall (λ x, is_trigger x = true) es
  ∧ run (H := spec_codec) 1 that (e :: es) fresh_world
    = fire (H := spec_codec) 1 that e fresh_world.
Proof.
  cbv zeta.
  split; [reflexivity|]. split; [reflexivity|]. split; [split; reflexivity|].
  split; [reflexivity|]. split; [repeat constructor|].
  apply (first_trigger_alone_counts (H := spec_codec) 0 _ _ _ fresh_world
           TransferablePromiseState_new);
    [reflexivity|reflexivity|split; reflexivity|reflexivity|repeat constructor].
Defined.

Lemma wrapped_value_as_fulfilled_promise_witness :
  let options := {| type := TypeNone; fallback := TypeNone; promise := true |} in
  promise options = true
  ∧ IsPromise (Number 7) = false
  ∧ OptionalTransferOut (H := spec_codec) 2 (Number 7) options empty_world
    = OptionalTransferOut (H := spec_codec) 2 (Promise 3 kFulfilled (Number 7)) options
        empty_world.
Proof.
  cbv zeta. split; [reflexivity|]. split; [reflexivity|].
  apply (wrapped_value_as_fulfilled_promise (H := spec_codec) 0 3); reflexivity.
Defined.

Lemma settling_then_running_settles_waiters_witness :
  let that := MakeHolder 0 {| type := TypeNone; fallback := TypeNone; promise := true |} in
  let q := [ {| resolver_isolate := 4; resolver_id := 0 |};
             {| resolver_isolate := 2; resolver_id := 1 |} ] in
  let st := {| value := None; waiting := q; did_throw := false; resolved := false |} in
  let w := {| heap := [st]; reactions := []; scheduled := []; settled := []; writes := [];
              next_resolver := 2 |} in
  let e := EvRejected (ErrorObject "Error" "boom") in
  promise (transfer_options that) = false
  ∧ heap w !! state that = Some st
  ∧ resolved st = false
  ∧ is_trigger e = true
  ∧ ∃ w1 w2 st1 tasks,
      fire (H := spec_codec) 1 that e w = Some (w1, Ok tt)
      ∧ scheduled w1 = scheduled w ++ tasks
      ∧ run_tasks tasks w1 = Some (w2, Ok tt)
      ∧ heap w1 !! state that = Some st1
      ∧ resolved st1 = true
      ∧ settled w2 = settled w ++ records_for (value st1, did_throw st1) (waiting st)
      ∧ heap w2 = heap w1
      ∧ scheduled w2 = scheduled w1.
Proof.
  cbv zeta. do 4 (split; [reflexivity|]).
  apply (settling_then_running_settles_waiters (H := spec_codec) 0); reflexivity.
Defined.

Lemma events_touch_one_bridge_witness :
  let that := MakeHolder 1 {| type := TypeNone; fallback := TypeNone; promise := true |} in
  let other := {| value := None;
                  waiting := [ {| resolver_isolate := 4; resolver_id := 0 |} ];
                  did_throw := false; resolved := false |} in
  let w := {| heap := [other; TransferablePromiseState_new]; reactions := [];
              scheduled := []; settled := []; writes := []; next_resolver := 1 |} in
  let w' := settle_world 1 (abandoned, true) [] w in
  promise (transfer_options that) = false
  ∧ fire (H := spec_codec) 1 that EvDestroy w = Some (w', Ok tt)
  ∧ Ok tt = Ok tt
  ∧ length (heap w') = length (heap w)
  ∧ ∀ l, l ≠ state that → heap w' !! l = heap w !! l.
Proof.
  cbv zeta. do 2 (split; [reflexivity|]).
  eapply (events_touch_one_bridge (H := spec_codec) 0 _ EvDestroy); reflexivity.
Defined.
